(** * The short-ID allocator of [back-end/api.py]

    A shallow embedding of the key generator of the URL-shortening
    service: the base-36 codec that is inlined in [generate_key], the
    range partitioner [generate_anchor], the module-level allocator
    state ([key_anchor], [KEY_LENGTH], [MAX], [active_ids],
    [deleted_ids]) and the two operations [generate_key] and
    [delete_id].

    Python integers are unbounded, so [key_anchor] and [MAX] are [Z];
    [//] and [%] with a positive divisor are [Z.div] and [Z.modulo]
    (both floor).  [KEY_LENGTH] starts at 2 and only grows, and
    [REPLICAS] is a count: both are [nat].  The two bookkeeping sets
    are [gset string].  [set.pop()] removes an arbitrary member, so
    [generate_key] is a relation; its two branches are functions. *)

From Stdlib Require Import ZArith List Lia Ascii String.
From stdpp Require Import base gmap strings list pretty.

(* [naive_solver], behind [set_solver], clears hypotheses that may
   already be gone. *)
#[local] Set Warnings "-clear-no-such-hyp".

Local Open Scope Z_scope.

(** ** Alphabet and codec *)

(** [chars_and_nums = string.digits + string.ascii_lowercase] *)
Definition chars_and_nums : string := "0123456789abcdefghijklmnopqrstuvwxyz".

(** [DIGIT_LENGTH = len(chars_and_nums)] *)
Definition DIGIT_LENGTH : Z := Z.of_nat (String.length chars_and_nums).

(** [chars_and_nums[k]].  Every index the program builds is a residue
    modulo [DIGIT_LENGTH] (lemma [key_indices_in_range]), so the default
    of the lookup is never taken (lemma [char_at_get]). *)
Definition char_at (k : Z) : ascii :=
  match String.get (Z.to_nat k) chars_and_nums with
  | Some c => c
  | None => "0"%char
  end.

(** [range(n - 1, -1, -1)] *)
Definition range_down (n : nat) : list nat := rev (seq 0 n).

(** [[(key_anchor // pow(DIGIT_LENGTH, i)) % DIGIT_LENGTH
      for i in range(KEY_LENGTH - 1, -1, -1)]] *)
Definition key_indices (key_anchor : Z) (KEY_LENGTH : nat) : list Z :=
  map (fun i : nat => (key_anchor / DIGIT_LENGTH ^ Z.of_nat i) mod DIGIT_LENGTH)
      (range_down KEY_LENGTH).

(** [''.join(chars_and_nums[k] for k in key_indices)] *)
Definition join_key (ks : list Z) : string :=
  string_of_list_ascii (map char_at ks).

(** The conversion of lines 178-179 as one function. *)
Definition encode (key_anchor : Z) (KEY_LENGTH : nat) : string :=
  join_key (key_indices key_anchor KEY_LENGTH).

(** Modelled from the spec: the source has no decoder; the spec asks for
    [Decode], the left inverse of the fixed-width base-36 encoding, most
    significant symbol first.  [index_of c] is the position of [c] in the
    alphabet. *)
Fixpoint index_from (c : ascii) (alphabet : list ascii) (pos : Z) : Z :=
  match alphabet with
  | [] => 0
  | a :: rest => if Ascii.eqb a c then pos else index_from c rest (pos + 1)
  end.

Definition index_of (c : ascii) : Z :=
  index_from c (list_ascii_of_string chars_and_nums) 0.

Fixpoint decode_from (acc : Z) (key : string) : Z :=
  match key with
  | EmptyString => acc
  | String c rest => decode_from (acc * DIGIT_LENGTH + index_of c) rest
  end.

Definition decode (key : string) : Z := decode_from 0 key.

(** [str(i)] for a non-negative integer: its decimal numeral. *)
Definition str (i : nat) : string := pretty i.

(** ** Range partitioner and allocator *)

Record State := mkState {
  key_anchor : Z;
  KEY_LENGTH : nat;
  MAX : Z;
  active_ids : gset string;
  deleted_ids : gset string
}.

Section Allocator.

(** The two module-level configuration constants. *)
Variable REPLICAS : nat.
Variable host_suffix : string.

(** The body of the [for i in range(REPLICAS)] loop of
    [generate_anchor], over the indices still to visit. *)
Fixpoint generate_anchor_loop (indices : list nat) (suffix : string)
         (len : nat) : Z * Z :=
  match indices with
  | [] => (-1, 0)
  | i :: rest =>
      if String.eqb suffix (str i) then
        let ID_SPACE := DIGIT_LENGTH ^ Z.of_nat len / Z.of_nat REPLICAS in
        let anchor := ID_SPACE * Z.of_nat i - 1 in
        let my_max := anchor + ID_SPACE in
        (anchor, my_max)
      else generate_anchor_loop rest suffix len
  end.

Definition generate_anchor (suffix : string) (len : nat) : Z * Z :=
  generate_anchor_loop (seq 0 REPLICAS) suffix len.

(** Module initialisation: [KEY_LENGTH = 2],
    [key_anchor, MAX = generate_anchor(host_suffix, KEY_LENGTH)],
    both sets empty. *)
Definition init : State :=
  let '(a, m) := generate_anchor host_suffix 2 in
  mkState a 2 m ∅ ∅.

(** The [else] branch of [generate_key] up to the conversion: the
    expansion test, then [key_anchor += 1]. *)
Definition advance (s : State) : State :=
  let s1 :=
    if Z.geb (key_anchor s) (MAX s - 1) then
      let len := S (KEY_LENGTH s) in
      let '(a, m) := generate_anchor host_suffix len in
      mkState a len m (active_ids s) (deleted_ids s)
    else s in
  mkState (key_anchor s1 + 1) (KEY_LENGTH s1) (MAX s1)
          (active_ids s1) (deleted_ids s1).

(** The whole fresh path: [else] branch, then [active_ids.add(key)]. *)
Definition mint (s : State) : string * State :=
  let s2 := advance s in
  let key := encode (key_anchor s2) (KEY_LENGTH s2) in
  (key, mkState (key_anchor s2) (KEY_LENGTH s2) (MAX s2)
                ({[key]} ∪ active_ids s2) (deleted_ids s2)).

(** The recycling path when [deleted_ids.pop()] yields [key]. *)
Definition reissue (key : string) (s : State) : State :=
  mkState (key_anchor s) (KEY_LENGTH s) (MAX s)
          ({[key]} ∪ active_ids s) (deleted_ids s ∖ {[key]}).

(** [generate_key()]: [generate_key s key s'] says that a call in
    state [s] may return [key] and leave state [s'].  The truth test
    [if deleted_ids:] is non-emptiness; [pop] may take any member. *)
Inductive generate_key : State → string → State → Prop :=
| gk_recycled s key :
    key ∈ deleted_ids s →
    generate_key s key (reissue key s)
| gk_fresh s :
    deleted_ids s = ∅ →
    generate_key s (mint s).1 (mint s).2.

(** [delete_id(del_id)]; the [print] of the [else] branch has no
    effect on the state. *)
Definition delete_id (del_id : string) (s : State) : State :=
  if decide (del_id ∈ active_ids s) then
    mkState (key_anchor s) (KEY_LENGTH s) (MAX s)
            (active_ids s ∖ {[del_id]}) ({[del_id]} ∪ deleted_ids s)
  else s.

End Allocator.

(** ** Events and runs *)

(** What one call did: [Minted key] is a [generate_key()] that took the
    fresh path, [Reissued key] one that popped [key] from [deleted_ids],
    [Released key] is [delete_id(key)]. *)
Inductive event :=
| Minted (key : string)
| Reissued (key : string)
| Released (key : string).

Definition minted_keys (tr : list event) : list string :=
  omap (fun e => match e with Minted key => Some key | _ => None end) tr.

Section Runs.

Variable REPLICAS : nat.
Variable host_suffix : string.

Inductive step : State → event → State → Prop :=
| step_fresh s :
    deleted_ids s = ∅ →
    step s (Minted (mint REPLICAS host_suffix s).1)
           (mint REPLICAS host_suffix s).2
| step_recycled s key :
    key ∈ deleted_ids s →
    step s (Reissued key) (reissue key s)
| step_release s key :
    step s (Released key) (delete_id key s).

(** [steps s tr s']: the calls of [tr], oldest first, lead from [s]
    to [s']. *)
Inductive steps : State → list event → State → Prop :=
| steps_nil s : steps s [] s
| steps_snoc s tr s1 e s2 :
    steps s tr s1 → step s1 e s2 → steps s (tr ++ [e]) s2.

(** The states the running service can be in. *)
Definition run (tr : list event) (s : State) : Prop :=
  steps (init REPLICAS host_suffix) tr s.

(** [n] consecutive fresh-path calls: the keys returned, oldest
    first, and the final state. *)
Fixpoint mint_n (n : nat) (s : State) : list string * State :=
  match n with
  | O => ([], s)
  | S n' =>
      let '(key, s1) := mint REPLICAS host_suffix s in
      let '(keys, s2) := mint_n n' s1 in
      (key :: keys, s2)
  end.

End Runs.

(** The block of integers a replica's pair [(key_anchor, MAX)]
    designates: [generate_key] increments before it encodes, so the
    pair stands for the integers above [key_anchor] up to [MAX]. *)
Definition owns (REPLICAS i len : nat) (v : Z) : Prop :=
  (generate_anchor REPLICAS (str i) len).1 < v
  ∧ v ≤ (generate_anchor REPLICAS (str i) len).2.

(** The key of [len] symbols ['0']. *)
Definition zeros (len : nat) : string :=
  string_of_list_ascii (repeat "0"%char len).

(** A call of [generate_key], on either path. *)
Definition is_allocation (e : event) : Prop :=
  match e with
  | Minted _ | Reissued _ => True
  | Released _ => False
  end.

(** [ID_SPACE = pow(DIGIT_LENGTH, KEY_LENGTH) // REPLICAS], the size of
    one replica's block. *)
Definition ID_SPACE (REPLICAS len : nat) : Z :=
  DIGIT_LENGTH ^ Z.of_nat len / Z.of_nat REPLICAS.

(** The three counters of a state. *)
Definition counters (s : State) : Z * nat * Z :=
  (key_anchor s, KEY_LENGTH s, MAX s).

(** The counters lie in the space of the current length: [key_anchor]
    is [-1] or a value of [KEY_LENGTH] symbols, and so is [MAX]. *)
Definition in_space (s : State) : Prop :=
  -1 ≤ key_anchor s
  ∧ key_anchor s < DIGIT_LENGTH ^ Z.of_nat (KEY_LENGTH s)
  ∧ MAX s + 1 ≤ DIGIT_LENGTH ^ Z.of_nat (KEY_LENGTH s).

(** [key] is the encoding of a value the cursor has already passed: at
    a shorter length, or at the current length and not above
    [key_anchor]. *)
Definition issued_before (s : State) (key : string) : Prop :=
  ∃ (v : Z) (len : nat),
    key = encode v len
    ∧ 0 ≤ v < DIGIT_LENGTH ^ Z.of_nat len
    ∧ ((len < KEY_LENGTH s)%nat ∨ (len = KEY_LENGTH s ∧ v ≤ key_anchor s)).

(** Two sample runs.  With 648 replicas a block at length 2 has two
    integers, so replica 0 expands on its second fresh call. *)
Definition example_trace : list event :=
  [Minted "00"; Released "00"; Reissued "00"; Minted "000"].

Definition example_state : State :=
  (mint 648 "0"
     (reissue "00" (delete_id "00" (mint 648 "0" (init 648 "0")).2))).2.

(** A single replica that minted ["00"] and ["01"] and then released
    both. *)
Definition two_released_trace : list event :=
  [Minted "00"; Minted "01"; Released "00"; Released "01"].

Definition two_released : State :=
  delete_id "01" (delete_id "00" (mint_n 1 "0" 2 (init 1 "0")).2).

(** The state of replica [i] is consistent with its block at the
    current length: [MAX] is the last integer of the block and
    [key_anchor] is not below the integer before the block. *)
Definition block_state (REPLICAS i : nat) (s : State) : Prop :=
  (2 ≤ KEY_LENGTH s)%nat
  ∧ MAX s = ID_SPACE REPLICAS (KEY_LENGTH s) * (Z.of_nat i + 1) - 1
  ∧ ID_SPACE REPLICAS (KEY_LENGTH s) * Z.of_nat i - 1 ≤ key_anchor s.

(** [key] is the encoding, at some length from 2 on, of the first
    integer of replica [i]'s block (only after an expansion, so at a
    length from 3 on) or of an integer of the block below its last
    two. *)
Definition in_block (REPLICAS i : nat) (key : string) : Prop :=
  ∃ (v : Z) (len : nat),
    key = encode v len
    ∧ (2 ≤ len)%nat
    ∧ (((3 ≤ len)%nat ∧ v = ID_SPACE REPLICAS len * Z.of_nat i)
       ∨ (ID_SPACE REPLICAS len * Z.of_nat i ≤ v
          ∧ v ≤ ID_SPACE REPLICAS len * (Z.of_nat i + 1) - 2)).

(** Every symbol of [key] is one of [chars_and_nums]. *)
Definition alphabet_key (key : string) : Prop :=
  Forall (fun c => In c (list_ascii_of_string chars_and_nums))
         (list_ascii_of_string key).

(** ** The decorator [token_required]

    The header value reaches the handler as Latin-1 text, one symbol
    per byte.  The two methods of [jwt_api] are not part of this file
    and are parameters: what [verify_jwt] returns is read for its truth
    value, and either method may raise. *)

(** [s.split(' ')]: one part more than there are spaces. *)
Fixpoint split_space (s : string) : list string :=
  match s with
  | EmptyString => [EmptyString]
  | String c rest =>
      if Ascii.eqb c " " then EmptyString :: split_space rest
      else match split_space rest with
           | part :: parts => String c part :: parts
           | [] => [String c EmptyString]
           end
  end.

(** [c.lower()] on Latin-1: the capitals A-Z, and the accented
    capitals 0xC0-0xDE without the multiplication sign 0xD7, move up by
    32. *)
Definition lower_char (c : ascii) : ascii :=
  let n := N_of_ascii c in
  if ((65 <=? n)%N && (n <=? 90)%N)
     || ((192 <=? n)%N && (n <=? 222)%N && negb (n =? 215)%N)
  then ascii_of_N (n + 32) else c.

Fixpoint lower (s : string) : string :=
  match s with
  | EmptyString => EmptyString
  | String c rest => String (lower_char c) (lower rest)
  end.

Fixpoint space_free (s : string) : Prop :=
  match s with
  | EmptyString => True
  | String c rest => c ≠ " "%char ∧ space_free rest
  end.

(** What the decorator looks at: [request.method] and
    [request.headers.get('Authorization', None)]. *)
Record request := mkRequest {
  method : string;
  authorization : option string
}.

(** The result of [jwt_api.verify_jwt(token)]. *)
Inductive verdict :=
| Truthy
| Falsy
| Raises (message : string).

(** The ['message'] of a 403 response: a text, or Python's complaint
    about unpacking [parts] values into two names. *)
Inductive body :=
| Message (text : string)
| UnpackError (parts : nat).

Inductive outcome (user : Type) :=
| Forbidden (b : body)
| CallWithUser (current_user : user)
| CallPlain
| DecodeRaised.

Arguments Forbidden {user} b.
Arguments CallWithUser {user} current_user.
Arguments CallPlain {user}.
Arguments DecodeRaised {user}.

Section TokenRequired.

Variable user : Type.
Variable verify_jwt : string → verdict.
(** [None] when [decode_jwt] raises; the call is outside the [try]. *)
Variable decode_jwt : string → option user.

(** [decorated_function]: what it answers itself, or how it calls the
    wrapped handler [f]. *)
Definition token_required (req : request) : outcome user :=
  match authorization req with
  | None => Forbidden (Message "Token is missing!")
  | Some EmptyString => Forbidden (Message "Token is missing!")
  | Some auth_header =>
      match split_space auth_header with
      | [token_type; token] =>
          if negb (String.eqb (lower token_type) "bearer") then
            Forbidden (Message "Authorization header must start with Bearer")
          else
            match verify_jwt token with
            | Raises message => Forbidden (Message message)
            | Falsy => Forbidden (Message "Invalid token or token has expired")
            | Truthy =>
                match decode_jwt token with
                | None => DecodeRaised
                | Some current_user =>
                    if String.eqb (method req) "POST"
                       || String.eqb (method req) "PUT"
                       || String.eqb (method req) "DELETE"
                    then CallWithUser current_user
                    else CallPlain
                end
            end
      | parts => Forbidden (UnpackError (length parts))
      end
  end.

End TokenRequired.

(** The half-open range that the pair of [generate_anchor] stands
    for.  [generate_key] adds one to [key_anchor] before it encodes, so
    the first integer of the block is [key_anchor + 1], and [my_max] is
    the last integer of the block, so the block ends before
    [my_max + 1]. *)
Definition anchor (REPLICAS : nat) (suffix : string) (len : nat) : Z :=
  (generate_anchor REPLICAS suffix len).1 + 1.


(** ** The codec *)

Lemma DIGIT_LENGTH_eq : DIGIT_LENGTH = 36.
Proof. reflexivity. Qed.

Lemma pow36_pos (n : nat) : 0 < DIGIT_LENGTH ^ Z.of_nat n.
Proof. rewrite DIGIT_LENGTH_eq. apply Z.pow_pos_nonneg; lia. Qed.

Lemma pow36_succ (n : nat) :
  DIGIT_LENGTH ^ Z.of_nat (S n) = DIGIT_LENGTH ^ Z.of_nat n * DIGIT_LENGTH.
Proof. rewrite Nat2Z.inj_succ, Z.pow_succ_r by lia. ring. Qed.

Lemma range_down_succ (n : nat) : range_down (S n) = n :: range_down n.
Proof. unfold range_down. rewrite seq_S, rev_app_distr. reflexivity. Qed.

Lemma key_indices_succ (v : Z) (n : nat) :
  key_indices v (S n)
  = (v / DIGIT_LENGTH ^ Z.of_nat n) mod DIGIT_LENGTH :: key_indices v n.
Proof. unfold key_indices. rewrite range_down_succ. reflexivity. Qed.

Lemma encode_succ (v : Z) (n : nat) :
  encode v (S n)
  = String (char_at ((v / DIGIT_LENGTH ^ Z.of_nat n) mod DIGIT_LENGTH))
           (encode v n).
Proof. unfold encode, join_key. rewrite key_indices_succ. reflexivity. Qed.

(** Every index built by the conversion is a valid position of the
    alphabet. *)
Lemma key_indices_in_range (v : Z) (n : nat) :
  Forall (fun k => 0 ≤ k < DIGIT_LENGTH) (key_indices v n).
Proof.
  unfold key_indices. apply Forall_map, Forall_forall. intros i _. simpl.
  apply Z.mod_pos_bound. rewrite DIGIT_LENGTH_eq. lia.
Qed.

Lemma small_index_cases (k : Z) :
  0 ≤ k < DIGIT_LENGTH → ∃ n : nat, k = Z.of_nat n ∧ In n (seq 0 36).
Proof.
  rewrite DIGIT_LENGTH_eq. intros Hk. exists (Z.to_nat k). split; [lia|].
  apply in_seq. lia.
Qed.

(** In range, the lookup [chars_and_nums[k]] succeeds. *)
Lemma char_at_get (k : Z) :
  0 ≤ k < DIGIT_LENGTH →
  String.get (Z.to_nat k) chars_and_nums = Some (char_at k).
Proof.
  intros Hk. destruct (small_index_cases k Hk) as (n & -> & Hn).
  clear Hk. revert n Hn. apply List.Forall_forall.
  repeat (constructor; [vm_compute; reflexivity|]). constructor.
Qed.

(** The alphabet has no repeated symbol: the position of the symbol at
    [k] is [k]. *)
Lemma index_of_char_at (k : Z) :
  0 ≤ k < DIGIT_LENGTH → index_of (char_at k) = k.
Proof.
  intros Hk. destruct (small_index_cases k Hk) as (n & -> & Hn).
  clear Hk. revert n Hn. apply List.Forall_forall.
  repeat (constructor; [vm_compute; reflexivity|]). constructor.
Qed.

Lemma encode_length (v : Z) (n : nat) : String.length (encode v n) = n.
Proof.
  induction n as [|n IH]; [reflexivity|].
  rewrite encode_succ. simpl. congruence.
Qed.

Lemma decode_from_encode (acc v : Z) (n : nat) :
  decode_from acc (encode v n)
  = acc * DIGIT_LENGTH ^ Z.of_nat n + v mod DIGIT_LENGTH ^ Z.of_nat n.
Proof.
  revert acc. induction n as [|n IH]; intros acc.
  - simpl. rewrite Z.mod_1_r. lia.
  - rewrite encode_succ. cbn [decode_from]. rewrite IH.
    rewrite index_of_char_at
      by (apply Z.mod_pos_bound; rewrite DIGIT_LENGTH_eq; lia).
    rewrite pow36_succ.
    rewrite (Z.rem_mul_r v (DIGIT_LENGTH ^ Z.of_nat n) DIGIT_LENGTH)
      by (pose proof (pow36_pos n); rewrite ?DIGIT_LENGTH_eq; lia).
    ring.
Qed.

Lemma decode_encode_mod (v : Z) (n : nat) :
  decode (encode v n) = v mod DIGIT_LENGTH ^ Z.of_nat n.
Proof. unfold decode. rewrite decode_from_encode. lia. Qed.

Lemma decode_encode (v : Z) (n : nat) :
  0 ≤ v < DIGIT_LENGTH ^ Z.of_nat n → decode (encode v n) = v.
Proof. intros Hv. rewrite decode_encode_mod. apply Z.mod_small, Hv. Qed.

Lemma encode_inj (v w : Z) (n : nat) :
  0 ≤ v < DIGIT_LENGTH ^ Z.of_nat n →
  0 ≤ w < DIGIT_LENGTH ^ Z.of_nat n →
  encode v n = encode w n → v = w.
Proof.
  intros Hv Hw Heq.
  rewrite <- (decode_encode v n Hv), <- (decode_encode w n Hw).
  congruence.
Qed.

(** Two keys of different widths are different strings. *)
Lemma encode_width_ne (v w : Z) (n m : nat) :
  n ≠ m → encode v n ≠ encode w m.
Proof.
  intros Hnm Heq. apply Hnm.
  rewrite <- (encode_length v n), <- (encode_length w m). congruence.
Qed.

Lemma encode_wraps (v : Z) (n : nat) :
  encode v n = encode (v mod DIGIT_LENGTH ^ Z.of_nat n) n.
Proof.
  unfold encode, key_indices. f_equal. apply map_ext_in.
  intros i Hi. unfold range_down in Hi. apply in_rev, in_seq in Hi.
  set (p := DIGIT_LENGTH ^ Z.of_nat i).
  assert (Hp : 0 < p) by apply pow36_pos.
  assert (Hsplit : DIGIT_LENGTH ^ Z.of_nat n
                   = p * (DIGIT_LENGTH * DIGIT_LENGTH ^ Z.of_nat (n - S i))).
  { unfold p. rewrite <- (Z.pow_succ_r DIGIT_LENGTH) by lia.
    rewrite <- Z.pow_add_r by lia. f_equal. lia. }
  rewrite Hsplit.
  assert (Hq : 0 < DIGIT_LENGTH ^ Z.of_nat (n - S i)) by apply pow36_pos.
  rewrite (Z.rem_mul_r v p) by (rewrite ?DIGIT_LENGTH_eq; nia).
  rewrite (Z.mul_comm p), Z.div_add by lia.
  rewrite (Z.div_small (v mod p)) by (apply Z.mod_pos_bound; lia).
  rewrite Z.add_0_l.
  rewrite (Z.rem_mul_r (v / p) DIGIT_LENGTH) by (rewrite ?DIGIT_LENGTH_eq; lia).
  rewrite (Z.mul_comm DIGIT_LENGTH), Z.mod_add by (rewrite DIGIT_LENGTH_eq; lia).
  rewrite Z.mod_mod by (rewrite DIGIT_LENGTH_eq; lia). reflexivity.
Qed.

Lemma encode_zero (n : nat) : encode 0 n = zeros n.
Proof.
  induction n as [|n IH]; [reflexivity|].
  rewrite encode_succ, IH. rewrite Z.div_0_l by (pose proof (pow36_pos n); lia).
  reflexivity.
Qed.

(** ** The range partitioner *)

Section Partitioner.

Variable REPLICAS : nat.

Lemma ID_SPACE_nonneg (len : nat) : 0 ≤ ID_SPACE REPLICAS len.
Proof.
  unfold ID_SPACE. pose proof (pow36_pos len).
  destruct REPLICAS as [|r]; [rewrite Z.div_0_r; lia|].
  apply Z.div_pos; lia.
Qed.

Lemma ID_SPACE_total (len : nat) :
  ID_SPACE REPLICAS len * Z.of_nat REPLICAS ≤ DIGIT_LENGTH ^ Z.of_nat len.
Proof.
  unfold ID_SPACE. pose proof (pow36_pos len).
  destruct REPLICAS as [|r]; [rewrite Z.div_0_r; lia|].
  rewrite Z.mul_comm. apply Z.mul_div_le. lia.
Qed.

(** What the loop returns: the sentinel when no visited index prints
    as the suffix, otherwise the pair of the first such index. *)
Lemma generate_anchor_loop_cases (indices : list nat) (suffix : string)
      (len : nat) :
  (generate_anchor_loop REPLICAS indices suffix len = (-1, 0)
   ∧ ∀ i, In i indices → suffix ≠ str i)
  ∨ ∃ i, In i indices ∧ suffix = str i
         ∧ generate_anchor_loop REPLICAS indices suffix len
           = (ID_SPACE REPLICAS len * Z.of_nat i - 1,
              ID_SPACE REPLICAS len * Z.of_nat i - 1 + ID_SPACE REPLICAS len).
Proof.
  induction indices as [|j rest IH]; simpl.
  - left. split; [reflexivity|]. intros i [].
  - destruct (String.eqb_spec suffix (str j)) as [Heq|Hne].
    + right. exists j. auto.
    + destruct IH as [[Hs Hall]|(i & Hi & Hsuf & Hres)].
      * left. split; [exact Hs|]. intros i [<-|Hi]; auto.
      * right. exists i. auto.
Qed.

Lemma generate_anchor_loop_seq (i len n a : nat) :
  (a ≤ i < a + n)%nat →
  generate_anchor_loop REPLICAS (seq a n) (str i) len
  = (ID_SPACE REPLICAS len * Z.of_nat i - 1,
     ID_SPACE REPLICAS len * Z.of_nat i - 1 + ID_SPACE REPLICAS len).
Proof.
  revert a. induction n as [|n IH]; intros a Hi; [lia|].
  simpl. destruct (String.eqb_spec (str i) (str a)) as [Heq|Hne].
  - apply pretty_nat_inj in Heq. subst a. reflexivity.
  - apply IH. assert (i ≠ a) by congruence. lia.
Qed.

(** A replica whose suffix is the numeral of an index below
    [REPLICAS] gets the pair of that index. *)
Lemma generate_anchor_valid (i len : nat) :
  (i < REPLICAS)%nat →
  generate_anchor REPLICAS (str i) len
  = (ID_SPACE REPLICAS len * Z.of_nat i - 1,
     ID_SPACE REPLICAS len * Z.of_nat i - 1 + ID_SPACE REPLICAS len).
Proof. intros Hi. apply generate_anchor_loop_seq. lia. Qed.

(** Any other suffix gets the sentinel of the last line. *)
Lemma generate_anchor_invalid (suffix : string) (len : nat) :
  (∀ i, (i < REPLICAS)%nat → suffix ≠ str i) →
  generate_anchor REPLICAS suffix len = (-1, 0).
Proof.
  intros Hno. unfold generate_anchor.
  destruct (generate_anchor_loop_cases (seq 0 REPLICAS) suffix len)
    as [[Hs _]|(i & Hi & Hsuf & _)]; [exact Hs|].
  apply in_seq in Hi. exfalso. apply (Hno i); [lia | exact Hsuf].
Qed.

(** Whatever the suffix, the pair stays inside the space of the
    length: the first integer above the anchor is a value of [len]
    symbols, and so is everything up to the maximum. *)
Lemma generate_anchor_bounds (suffix : string) (len : nat) :
  -1 ≤ (generate_anchor REPLICAS suffix len).1
  ∧ (generate_anchor REPLICAS suffix len).1 + 1 < DIGIT_LENGTH ^ Z.of_nat len
  ∧ (generate_anchor REPLICAS suffix len).2 + 1 ≤ DIGIT_LENGTH ^ Z.of_nat len.
Proof.
  pose proof (pow36_pos len) as Hpos.
  unfold generate_anchor.
  destruct (generate_anchor_loop_cases (seq 0 REPLICAS) suffix len)
    as [[-> _]|(i & Hi & _ & ->)]; simpl; [lia|].
  apply in_seq in Hi.
  pose proof (ID_SPACE_nonneg len) as Hnn.
  pose proof (ID_SPACE_total len) as Htot.
  nia.
Qed.

Lemma owns_valid (i len : nat) (v : Z) :
  (i < REPLICAS)%nat →
  owns REPLICAS i len v
  ↔ ID_SPACE REPLICAS len * Z.of_nat i ≤ v
    ∧ v < ID_SPACE REPLICAS len * (Z.of_nat i + 1).
Proof.
  intros Hi. unfold owns. rewrite generate_anchor_valid by exact Hi.
  simpl. lia.
Qed.

End Partitioner.

(** ** The allocator: one call *)

Section Calls.

Variable REPLICAS : nat.
Variable host_suffix : string.

Local Abbreviation generate_anchor := (generate_anchor REPLICAS).
Local Abbreviation advance := (advance REPLICAS host_suffix).
Local Abbreviation mint := (mint REPLICAS host_suffix).
Local Abbreviation generate_key := (generate_key REPLICAS host_suffix).
Local Abbreviation step := (step REPLICAS host_suffix).

Lemma init_counters :
  counters (init REPLICAS host_suffix)
  = ((generate_anchor host_suffix 2).1, 2%nat,
     (generate_anchor host_suffix 2).2).
Proof.
  unfold init. destruct (generate_anchor host_suffix 2). reflexivity.
Qed.

Lemma init_sets :
  active_ids (init REPLICAS host_suffix) = ∅
  ∧ deleted_ids (init REPLICAS host_suffix) = ∅.
Proof.
  unfold init. destruct (generate_anchor host_suffix 2). split; reflexivity.
Qed.

(** No expansion: the cursor moves up by one. *)
Lemma advance_same (s : State) :
  key_anchor s < MAX s - 1 →
  advance s = mkState (key_anchor s + 1) (KEY_LENGTH s) (MAX s)
                      (active_ids s) (deleted_ids s).
Proof.
  intros Hlt. unfold advance.
  destruct (Z.geb_spec (key_anchor s) (MAX s - 1)); [lia|reflexivity].
Qed.

(** Expansion: one more symbol, and the cursor is the first integer
    of the new pair. *)
Lemma advance_expand (s : State) :
  MAX s - 1 ≤ key_anchor s →
  advance s
  = mkState ((generate_anchor host_suffix (S (KEY_LENGTH s))).1 + 1)
            (S (KEY_LENGTH s))
            (generate_anchor host_suffix (S (KEY_LENGTH s))).2
            (active_ids s) (deleted_ids s).
Proof.
  intros Hge. unfold advance.
  destruct (Z.geb_spec (key_anchor s) (MAX s - 1)); [|lia].
  destruct (generate_anchor host_suffix (S (KEY_LENGTH s))). reflexivity.
Qed.

Lemma advance_sets (s : State) :
  active_ids (advance s) = active_ids s
  ∧ deleted_ids (advance s) = deleted_ids s.
Proof.
  destruct (Z.lt_ge_cases (key_anchor s) (MAX s - 1)) as [H|H].
  - rewrite (advance_same s H). split; reflexivity.
  - rewrite (advance_expand s H). split; reflexivity.
Qed.

Lemma mint_counters (s : State) : counters (mint s).2 = counters (advance s).
Proof. reflexivity. Qed.

Lemma mint_key (s : State) :
  (mint s).1 = encode (key_anchor (advance s)) (KEY_LENGTH (advance s)).
Proof. reflexivity. Qed.

Lemma mint_active (s : State) :
  active_ids (mint s).2 = {[(mint s).1]} ∪ active_ids s.
Proof.
  unfold mint. cbv zeta. cbn [fst snd active_ids].
  rewrite (proj1 (advance_sets s)). reflexivity.
Qed.

Lemma mint_deleted (s : State) : deleted_ids (mint s).2 = deleted_ids s.
Proof. unfold mint. cbv zeta. cbn [snd deleted_ids]. apply advance_sets. Qed.

Lemma advance_in_space (s : State) : in_space s → in_space (advance s).
Proof.
  intros (Hlo & Hhi & Hmax).
  destruct (Z.lt_ge_cases (key_anchor s) (MAX s - 1)) as [H|H].
  - rewrite (advance_same s H). unfold in_space. simpl. lia.
  - rewrite (advance_expand s H). unfold in_space. simpl.
    pose proof (generate_anchor_bounds REPLICAS host_suffix (S (KEY_LENGTH s))).
    lia.
Qed.

(** The value a fresh call encodes is a value of the (possibly new)
    length. *)
Lemma advance_value_in_range (s : State) :
  in_space s →
  0 ≤ key_anchor (advance s)
      < DIGIT_LENGTH ^ Z.of_nat (KEY_LENGTH (advance s)).
Proof.
  intros (Hlo & Hhi & Hmax).
  destruct (Z.lt_ge_cases (key_anchor s) (MAX s - 1)) as [H|H].
  - rewrite (advance_same s H). simpl. lia.
  - rewrite (advance_expand s H). simpl.
    pose proof (generate_anchor_bounds REPLICAS host_suffix (S (KEY_LENGTH s))).
    lia.
Qed.

(** A key the cursor has passed stays passed. *)
Lemma issued_before_advance (s : State) (key : string) :
  issued_before s key → issued_before (advance s) key.
Proof.
  intros (v & len & Hk & Hv & Hpos). exists v, len.
  split; [exact Hk|]. split; [exact Hv|].
  destruct (Z.lt_ge_cases (key_anchor s) (MAX s - 1)) as [H|H].
  - rewrite (advance_same s H). simpl. lia.
  - rewrite (advance_expand s H). simpl. lia.
Qed.

(** The key of a fresh call was never passed before. *)
Lemma mint_not_issued_before (s : State) :
  in_space s → ¬ issued_before s (mint s).1.
Proof.
  intros Hs (v & len & Hk & Hv & Hpos).
  pose proof (advance_value_in_range s Hs) as Hnew.
  rewrite mint_key in Hk. destruct Hs as (Hlo & Hhi & Hmax).
  destruct (Z.lt_ge_cases (key_anchor s) (MAX s - 1)) as [H|H].
  - rewrite (advance_same s H) in Hk, Hnew. simpl in Hk, Hnew.
    destruct Hpos as [Hlt|[-> Hle]].
    + apply encode_width_ne in Hk; [exact Hk|lia].
    + apply encode_inj in Hk; [lia|exact Hnew|exact Hv].
  - rewrite (advance_expand s H) in Hk. simpl in Hk.
    apply encode_width_ne in Hk; [exact Hk|lia].
Qed.

Lemma mint_issued (s : State) :
  in_space s → issued_before (mint s).2 (mint s).1.
Proof.
  intros Hs. exists (key_anchor (advance s)), (KEY_LENGTH (advance s)).
  split; [apply mint_key|]. split; [apply advance_value_in_range, Hs|].
  right. simpl. lia.
Qed.

Lemma reissue_counters (key : string) (s : State) :
  counters (reissue key s) = counters s.
Proof. reflexivity. Qed.

Lemma delete_id_counters (key : string) (s : State) :
  counters (delete_id key s) = counters s.
Proof. unfold delete_id. case_decide; reflexivity. Qed.

Lemma in_space_counters (s s' : State) :
  counters s' = counters s → in_space s → in_space s'.
Proof.
  unfold counters, in_space. intros [= Ha Hl Hm]. rewrite Ha, Hl, Hm. trivial.
Qed.

Lemma issued_before_counters (s s' : State) (key : string) :
  counters s' = counters s → issued_before s key → issued_before s' key.
Proof.
  unfold counters, issued_before. intros [= Ha Hl Hm]. rewrite Ha, Hl. trivial.
Qed.

(** [generate_key] and the two allocation events are the same
    thing. *)
Lemma generate_key_step (s : State) (key : string) (s' : State) :
  generate_key s key s'
  ↔ step s (Minted key) s' ∨ step s (Reissued key) s'.
Proof.
  split.
  - intros Hcall. inversion Hcall; subst; [right|left]; constructor; assumption.
  - intros [H|H]; inversion H; subst; constructor; assumption.
Qed.

(** A call of [generate_key] always returns. *)
Lemma generate_key_total (s : State) : ∃ key s', generate_key s key s'.
Proof.
  destruct (decide (deleted_ids s = ∅)) as [Hemp|Hne].
  - eexists _, _. apply gk_fresh, Hemp.
  - apply set_choose_L in Hne as [key Hkey].
    eexists _, _. apply gk_recycled, Hkey.
Qed.

(** With an empty pool the call is the fresh path. *)
Lemma generate_key_empty (s : State) (key : string) (s' : State) :
  deleted_ids s = ∅ → generate_key s key s' →
  key = (mint s).1 ∧ s' = (mint s).2.
Proof.
  intros Hemp Hcall. inversion Hcall as [s0 k Hin|s0 _]; subst; [|auto].
  rewrite Hemp in Hin. set_solver.
Qed.

(** With a non-empty pool the call pops a member and mints nothing. *)
Lemma generate_key_nonempty (s : State) (key : string) (s' : State) :
  deleted_ids s ≠ ∅ → generate_key s key s' →
  key ∈ deleted_ids s ∧ s' = reissue key s.
Proof.
  intros Hne Hcall.
  inversion Hcall as [s0 k Hin|s0 Hemp]; subst; [auto|contradiction].
Qed.

End Calls.

(** ** The allocator: sequences of calls *)

Section Sequences.

Variable REPLICAS : nat.
Variable host_suffix : string.

Local Abbreviation mint := (mint REPLICAS host_suffix).
Local Abbreviation generate_key := (generate_key REPLICAS host_suffix).
Local Abbreviation step := (step REPLICAS host_suffix).
Local Abbreviation steps := (steps REPLICAS host_suffix).
Local Abbreviation run := (run REPLICAS host_suffix).
Local Abbreviation mint_n := (mint_n REPLICAS host_suffix).
Local Abbreviation init := (init REPLICAS host_suffix).

Lemma init_in_space : in_space init.
Proof.
  pose proof (init_counters REPLICAS host_suffix) as Hc.
  pose proof (generate_anchor_bounds REPLICAS host_suffix 2) as Hb.
  unfold counters in Hc. injection Hc as Ha Hl Hm.
  unfold in_space. rewrite Ha, Hl, Hm. lia.
Qed.

Lemma step_in_space (s : State) (e : event) (s' : State) :
  step s e s' → in_space s → in_space s'.
Proof.
  intros Hstep Hs. inversion Hstep; subst.
  - apply (in_space_counters (advance REPLICAS host_suffix s)).
    + apply mint_counters.
    + apply advance_in_space, Hs.
  - apply (in_space_counters s); [apply reissue_counters | exact Hs].
  - apply (in_space_counters s); [apply delete_id_counters | exact Hs].
Qed.

Lemma step_issued_before (s : State) (e : event) (s' : State) (key : string) :
  step s e s' → issued_before s key → issued_before s' key.
Proof.
  intros Hstep Hk. inversion Hstep; subst.
  - apply (issued_before_counters (advance REPLICAS host_suffix s)).
    + apply mint_counters.
    + apply issued_before_advance, Hk.
  - apply (issued_before_counters s); [apply reissue_counters | exact Hk].
  - apply (issued_before_counters s); [apply delete_id_counters | exact Hk].
Qed.

(** The invariant behind the uniqueness of fresh keys: every key
    minted so far has been passed by the cursor, and no two of them
    are equal. *)
Lemma steps_minted_fresh (s0 : State) (tr : list event) (s : State) :
  steps s0 tr s → in_space s0 →
  in_space s
  ∧ Forall (issued_before s) (minted_keys tr)
  ∧ NoDup (minted_keys tr).
Proof.
  induction 1 as [s0|s0 tr s1 e s2 Hsteps IH Hstep]; intros H0.
  - split; [exact H0|]. split; constructor.
  - destruct (IH H0) as (Hs1 & Hold & Hnd).
    split; [exact (step_in_space _ _ _ Hstep Hs1)|].
    unfold minted_keys. rewrite omap_app. fold (minted_keys tr).
    assert (Hkept : Forall (issued_before s2) (minted_keys tr)).
    { eapply Forall_impl; [exact Hold|].
      intros key. apply (step_issued_before _ _ _ _ Hstep). }
    inversion Hstep; subst; simpl; rewrite ?app_nil_r; auto.
    split.
    + apply Forall_app. split; [exact Hkept|].
      constructor; [apply mint_issued, Hs1 | constructor].
    + apply NoDup_app. split; [exact Hnd|]. split.
      * intros key Hin Hnew. apply list_elem_of_singleton in Hnew. subst key.
        apply (mint_not_issued_before REPLICAS host_suffix s1 Hs1).
        rewrite Forall_forall in Hold. apply Hold, Hin.
      * apply NoDup_singleton.
Qed.

(** The two bookkeeping sets stay disjoint. *)
Lemma step_disjoint (s : State) (e : event) (s' : State) :
  step s e s' → active_ids s ## deleted_ids s →
  active_ids s' ## deleted_ids s'.
Proof.
  intros Hstep Hd. inversion Hstep as [? Hemp|? ? Hin|]; subst.
  - rewrite mint_deleted. set_solver.
  - unfold reissue. simpl. set_solver.
  - unfold delete_id. case_decide; simpl; set_solver.
Qed.

Lemma steps_disjoint (s0 : State) (tr : list event) (s : State) :
  steps s0 tr s → active_ids s0 ## deleted_ids s0 →
  active_ids s ## deleted_ids s.
Proof.
  induction 1 as [|s0 tr s1 e s2 _ IH Hstep]; intros H0; [exact H0|].
  exact (step_disjoint _ _ _ Hstep (IH H0)).
Qed.

(** One call changes the length by nothing or by one symbol. *)
Lemma step_length (s : State) (e : event) (s' : State) :
  step s e s' →
  KEY_LENGTH s' = KEY_LENGTH s ∨ KEY_LENGTH s' = S (KEY_LENGTH s).
Proof.
  intros Hstep. inversion Hstep as [? Hemp|? ? Hin|]; subst.
  - destruct (Z.lt_ge_cases (key_anchor s) (MAX s - 1)) as [Hc|Hc].
    + left. change (KEY_LENGTH (advance REPLICAS host_suffix s) = KEY_LENGTH s).
      rewrite (advance_same _ _ s Hc). reflexivity.
    + right. change (KEY_LENGTH (advance REPLICAS host_suffix s)
                     = S (KEY_LENGTH s)).
      rewrite (advance_expand _ _ s Hc). reflexivity.
  - left. reflexivity.
  - left. unfold delete_id. case_decide; reflexivity.
Qed.

Lemma steps_length_mono (s0 : State) (tr : list event) (s : State) :
  steps s0 tr s → (KEY_LENGTH s0 ≤ KEY_LENGTH s)%nat.
Proof.
  induction 1 as [|s0 tr s1 e s2 _ IH Hstep]; [lia|].
  destruct (step_length _ _ _ Hstep); lia.
Qed.

Lemma steps_app (s0 : State) (tr1 : list event) (s1 : State)
      (tr2 : list event) (s2 : State) :
  steps s0 tr1 s1 → steps s1 tr2 s2 → steps s0 (tr1 ++ tr2) s2.
Proof.
  intros H1 H2. induction H2 as [|s1 tr2 s2 e s3 _ IH Hstep].
  - rewrite app_nil_r. exact H1.
  - rewrite app_assoc. econstructor; [exact (IH H1) | exact Hstep].
Qed.

Lemma steps_one (s : State) (e : event) (s' : State) :
  step s e s' → steps s [e] s'.
Proof. intros Hstep. apply (steps_snoc _ _ s [] s e s'); [constructor|exact Hstep]. Qed.

Lemma mint_n_succ (n : nat) (s : State) :
  mint_n (S n) s
  = ((mint s).1 :: (mint_n n (mint s).2).1, (mint_n n (mint s).2).2).
Proof.
  change (mint_n (S n) s)
    with (let '(key, s1) := mint s in
          let '(keys, s2) := mint_n n s1 in (key :: keys, s2)).
  destruct (mint s) as [key s1]. cbn [fst snd].
  destruct (mint_n n s1). reflexivity.
Qed.

(** [n] fresh calls in a row, as a run. *)
Lemma steps_mint_n (n : nat) (s : State) :
  deleted_ids s = ∅ →
  steps s (map Minted (mint_n n s).1) (mint_n n s).2.
Proof.
  revert s. induction n as [|n IH]; intros s Hemp; [constructor|].
  rewrite mint_n_succ. cbn [fst snd map].
  apply (steps_app s [Minted (mint s).1] (mint s).2).
  - apply steps_one. constructor. exact Hemp.
  - apply IH. rewrite mint_deleted. exact Hemp.
Qed.

Lemma mint_n_length (n : nat) (s : State) : length (mint_n n s).1 = n.
Proof.
  revert s. induction n as [|n IH]; intros s; [reflexivity|].
  rewrite mint_n_succ. cbn [fst length]. rewrite IH. reflexivity.
Qed.

Lemma mint_n_snoc (n : nat) (s : State) :
  mint_n (S n) s
  = ((mint_n n s).1 ++ [(mint (mint_n n s).2).1], (mint (mint_n n s).2).2).
Proof.
  revert s. induction n as [|n IH]; intros s.
  - rewrite mint_n_succ. reflexivity.
  - rewrite mint_n_succ, IH. rewrite (mint_n_succ n s). reflexivity.
Qed.

(** With no release in between, the pool stays empty and the calls
    are exactly the fresh ones: the run is determined. *)
Lemma steps_allocations_only (s0 : State) (tr : list event) (s : State) :
  steps s0 tr s → deleted_ids s0 = ∅ → Forall is_allocation tr →
  tr = map Minted (mint_n (length tr) s0).1
  ∧ s = (mint_n (length tr) s0).2
  ∧ deleted_ids s = ∅.
Proof.
  induction 1 as [s0|s0 tr s1 e s2 _ IH Hstep]; intros Hemp Hall.
  - auto.
  - apply Forall_app in Hall as [Hall He].
    destruct (IH Hemp Hall) as (Htr & Hs1 & Hemp1).
    rewrite length_app, Nat.add_1_r, mint_n_snoc. cbn [fst snd length].
    rewrite map_app, <- Htr, <- Hs1. cbn [map].
    inversion Hstep; subst e s2.
    + rewrite mint_deleted. auto.
    + rewrite Hemp1 in *. set_solver.
    + inversion He as [|? ? Hrel _]. destruct Hrel.
Qed.

End Sequences.

(** ** Building runs call by call *)

Section Building.

Variable REPLICAS : nat.
Variable host_suffix : string.

Local Abbreviation mint := (mint REPLICAS host_suffix).
Local Abbreviation generate_key := (generate_key REPLICAS host_suffix).
Local Abbreviation steps := (steps REPLICAS host_suffix).

Lemma generate_key_fresh_eq (s : State) (key : string) (s' : State) :
  deleted_ids s = ∅ → mint s = (key, s') → generate_key s key s'.
Proof.
  intros Hemp Hm.
  replace key with (mint s).1 by (rewrite Hm; reflexivity).
  replace s' with (mint s).2 by (rewrite Hm; reflexivity).
  apply gk_fresh, Hemp.
Qed.

Lemma steps_fresh (s0 : State) (tr : list event) (s : State)
      (key : string) (s' : State) :
  steps s0 tr s → deleted_ids s = ∅ → mint s = (key, s') →
  steps s0 (tr ++ [Minted key]) s'.
Proof.
  intros Hsteps Hemp Hm. apply (steps_snoc _ _ s0 tr s); [exact Hsteps|].
  replace key with (mint s).1 by (rewrite Hm; reflexivity).
  replace s' with (mint s).2 by (rewrite Hm; reflexivity).
  constructor. exact Hemp.
Qed.

Lemma steps_recycled (s0 : State) (tr : list event) (s : State)
      (key : string) :
  steps s0 tr s → key ∈ deleted_ids s →
  steps s0 (tr ++ [Reissued key]) (reissue key s).
Proof.
  intros Hsteps Hin. apply (steps_snoc _ _ s0 tr s); [exact Hsteps|].
  constructor. exact Hin.
Qed.

Lemma steps_release (s0 : State) (tr : list event) (s : State)
      (key : string) :
  steps s0 tr s → steps s0 (tr ++ [Released key]) (delete_id key s).
Proof.
  intros Hsteps. apply (steps_snoc _ _ s0 tr s); [exact Hsteps|].
  constructor.
Qed.

End Building.

Lemma example_run : run 648 "0" example_trace example_state.
Proof.
  unfold run, example_trace, example_state.
  apply (steps_fresh _ _ _ [Minted "00"; Released "00"; Reissued "00"]
           (reissue "00" (delete_id "00" (mint 648 "0" (init 648 "0")).2)));
    [|vm_compute; reflexivity|vm_compute; reflexivity].
  apply (steps_recycled _ _ _ [Minted "00"; Released "00"]
           (delete_id "00" (mint 648 "0" (init 648 "0")).2));
    [|apply (bool_decide_unpack _); vm_compute; exact I].
  apply (steps_release _ _ _ [Minted "00"] (mint 648 "0" (init 648 "0")).2).
  apply (steps_fresh _ _ _ [] (init 648 "0"));
    [constructor|vm_compute; reflexivity|vm_compute; reflexivity].
Qed.

Lemma two_released_run : run 1 "0" two_released_trace two_released.
Proof.
  unfold run, two_released_trace, two_released.
  apply (steps_release _ _ _ [Minted "00"; Minted "01"; Released "00"]
           (delete_id "00" (mint_n 1 "0" 2 (init 1 "0")).2)).
  apply (steps_release _ _ _ [Minted "00"; Minted "01"]
           (mint_n 1 "0" 2 (init 1 "0")).2).
  change [Minted "00"; Minted "01"]
    with (map Minted ["00"; "01"]%string).
  replace ["00"; "01"]%string with (mint_n 1 "0" 2 (init 1 "0")).1
    by (vm_compute; reflexivity).
  apply steps_mint_n, init_sets.
Qed.

(** ** The properties of the specification *)

Lemma is_allocation_minted (keys : list string) :
  Forall is_allocation (map Minted keys).
Proof. induction keys; constructor; [exact I | assumption]. Qed.

Lemma run_mint_n (REPLICAS : nat) (host_suffix : string) (n : nat) :
  run REPLICAS host_suffix
      (map Minted (mint_n REPLICAS host_suffix n (init REPLICAS host_suffix)).1)
      (mint_n REPLICAS host_suffix n (init REPLICAS host_suffix)).2.
Proof. apply steps_mint_n, init_sets. Qed.

(** C1.  A single replica ([REPLICAS = 1], suffix ["0"]) starting at
    length 2, called 1297 times with no release: the first call returns
    ["00"], the 1295th returns ["zy"] (the value 1294), and it is
    already the 1296th call that expands to length 3 and returns
    ["000"]; the 1297th returns ["001"].  The test
    [key_anchor >= MAX - 1] fires one call before the block is used up,
    so the value 1295 (["zz"]) is never issued. *)
Theorem C1_single_replica_expands_at_call_1296 (tr : list event) (s : State) :
  run 1 "0" tr s → Forall is_allocation tr → length tr = 1297%nat →
  tr !! 0%nat = Some (Minted "00")
  ∧ tr !! 1294%nat = Some (Minted "zy")
  ∧ tr !! 1295%nat = Some (Minted "000")
  ∧ tr !! 1296%nat = Some (Minted "001")
  ∧ KEY_LENGTH s = 3%nat.
Proof.
  intros Hrun Hall Hlen.
  destruct (steps_allocations_only _ _ _ _ _ Hrun (proj2 (init_sets 1 "0")) Hall)
    as (Htr & Hs & _).
  rewrite Hlen in Htr, Hs. rewrite Htr, Hs. vm_compute. auto.
Qed.

Lemma C1_single_replica_expands_at_call_1296_witness :
  (map Minted (mint_n 1 "0" 1297 (init 1 "0")).1) !! 1295%nat
  = Some (Minted "000").
Proof.
  refine (proj1 (proj2 (proj2
    (C1_single_replica_expands_at_call_1296
       (map Minted (mint_n 1 "0" 1297 (init 1 "0")).1)
       (mint_n 1 "0" 1297 (init 1 "0")).2 _ _ _)))).
  - apply run_mint_n.
  - apply is_allocation_minted.
  - rewrite length_map. apply mint_n_length.
Defined.

(** C2, the claim as stated, is false: with five replicas at length 2
    the value 1295 lies in [0, 36^2) and in no replica's block, whether
    the pair is read as the integers above [key_anchor] up to [MAX] or
    literally as the half-open range from [key_anchor] to [MAX]. *)
Lemma C2_counterexample :
  0 ≤ 1295 < DIGIT_LENGTH ^ 2
  ∧ (¬ ∃ i : nat, (i < 5)%nat ∧ owns 5 i 2 1295)
  ∧ (¬ ∃ i : nat, (i < 5)%nat
       ∧ (generate_anchor 5 (str i) 2).1 ≤ 1295
         < (generate_anchor 5 (str i) 2).2).
Proof.
  split; [vm_compute; split; [discriminate | reflexivity]|].
  split; intros (i & Hi & Hown);
    assert (Hcases : (i = 0 ∨ i = 1 ∨ i = 2 ∨ i = 3 ∨ i = 4)%nat) by lia;
    destruct Hcases as [->|[->|[->|[->| ->]]]];
    vm_compute in Hown; destruct Hown as [H1 H2];
    first [apply H1; reflexivity | apply H2; reflexivity | discriminate].
Qed.

(** C2, amended.  For every replica count at least 1 and every length,
    the blocks of the indices [0 .. count-1] are pairwise disjoint and
    their union is exactly [0, count * (36^length // count)): a prefix
    of [0, 36^length), and all of it exactly when [count] divides
    [36^length]. *)
Theorem C2_blocks_partition_a_prefix (count len : nat) :
  (1 ≤ count)%nat →
  (∀ (i j : nat) (v : Z), (i < count)%nat → (j < count)%nat →
     owns count i len v → owns count j len v → i = j)
  ∧ (∀ v : Z, (∃ i : nat, (i < count)%nat ∧ owns count i len v)
              ↔ 0 ≤ v < ID_SPACE count len * Z.of_nat count)
  ∧ ID_SPACE count len * Z.of_nat count ≤ DIGIT_LENGTH ^ Z.of_nat len
  ∧ (ID_SPACE count len * Z.of_nat count = DIGIT_LENGTH ^ Z.of_nat len
     ↔ (Z.of_nat count | DIGIT_LENGTH ^ Z.of_nat len)).
Proof.
  intros Hcount.
  pose proof (ID_SPACE_nonneg count len) as Hnn.
  pose proof (ID_SPACE_total count len) as Htot.
  split; [|split; [|split]].
  - intros i j v Hi Hj Hvi Hvj.
    apply owns_valid in Hvi; [|exact Hi]. apply owns_valid in Hvj; [|exact Hj].
    nia.
  - intros v. split.
    + intros (i & Hi & Hv). apply owns_valid in Hv; [|exact Hi]. nia.
    + intros [Hlo Hhi].
      assert (Hpos : 0 < ID_SPACE count len) by nia.
      exists (Z.to_nat (v / ID_SPACE count len)).
      pose proof (Z.div_pos v _ Hlo Hpos) as Hq.
      pose proof (Z.mul_div_le v _ Hpos) as Hle.
      pose proof (Z.mul_succ_div_gt v _ Hpos) as Hgt.
      assert (Hlt : v / ID_SPACE count len < Z.of_nat count).
      { apply Z.div_lt_upper_bound; lia. }
      split; [lia|]. apply owns_valid; [lia|].
      rewrite Z2Nat.id by exact Hq. lia.
  - exact Htot.
  - split.
    + intros Heq. exists (ID_SPACE count len). lia.
    + intros [k Hk]. unfold ID_SPACE. rewrite Hk.
      rewrite Z.div_mul by lia. reflexivity.
Qed.

Lemma C2_blocks_partition_a_prefix_witness :
  (∃ i : nat, (i < 4)%nat ∧ owns 4 i 2 700) ↔ 0 ≤ 700 < ID_SPACE 4 2 * 4.
Proof.
  exact (proj1 (proj2 (C2_blocks_partition_a_prefix 4 2 ltac:(lia))) 700).
Defined.

(** C3.  Whatever the configuration and whatever the sequence of
    [generate_key()] and [delete_id()] calls of one replica, the keys
    returned by the fresh path are pairwise distinct, also across
    expansions of the length. *)
Theorem C3_fresh_keys_distinct (REPLICAS : nat) (host_suffix : string)
        (tr : list event) (s : State) :
  run REPLICAS host_suffix tr s → NoDup (minted_keys tr).
Proof.
  intros Hrun.
  exact (proj2 (proj2 (steps_minted_fresh _ _ _ _ _ Hrun
                         (init_in_space REPLICAS host_suffix)))).
Qed.

Lemma C3_fresh_keys_distinct_witness :
  run 648 "0" example_trace example_state
  ∧ NoDup (minted_keys example_trace)
  ∧ minted_keys example_trace = ["00"; "000"]%string.
Proof.
  split; [exact example_run|].
  split; [exact (C3_fresh_keys_distinct 648 "0" _ _ example_run)|reflexivity].
Defined.

(** C4, the claim as stated, is false.  A replica that minted ["00"]
    and ["01"] and released both may be handed ["00"] by the call that
    follows the release of ["01"]: [pop] takes any member of the pool.
    And the release of a key that is not active changes nothing, so the
    next call after [delete_id("zz")] on a fresh replica mints
    ["00"]. *)
Lemma C4_counterexample :
  (run 1 "0" two_released_trace two_released
   ∧ last two_released_trace = Some (Released "01")
   ∧ generate_key 1 "0" two_released "00" (reissue "00" two_released)
   ∧ "00" ≠ "01")
  ∧ (delete_id "zz" (init 1 "0") = init 1 "0"
     ∧ generate_key 1 "0" (delete_id "zz" (init 1 "0")) "00"
                    (mint 1 "0" (init 1 "0")).2
     ∧ "00" ≠ "zz").
Proof.
  split.
  - split; [exact two_released_run|]. split; [reflexivity|].
    split; [|discriminate].
    apply gk_recycled. apply (bool_decide_unpack _). vm_compute. exact I.
  - split; [vm_compute; reflexivity|]. split; [|discriminate].
    apply generate_key_fresh_eq; vm_compute; reflexivity.
Qed.

(** C4, amended.  Whenever the pool is non-empty, [generate_key()]
    returns a member of the pool (any of them), removes it from the
    pool and leaves the counters alone: nothing is minted.  After
    [delete_id(k)] of an active key [k] with the pool empty before, the
    next [generate_key()] returns [k]. *)
Theorem C4_recycled_keys_first (REPLICAS : nat) (host_suffix : string)
        (s : State) :
  (deleted_ids s ≠ ∅ →
   (∃ key s', generate_key REPLICAS host_suffix s key s')
   ∧ ∀ key s', generate_key REPLICAS host_suffix s key s' →
       key ∈ deleted_ids s ∧ s' = reissue key s ∧ counters s' = counters s)
  ∧ (deleted_ids s = ∅ →
     ∀ k key s', k ∈ active_ids s →
       generate_key REPLICAS host_suffix (delete_id k s) key s' → key = k).
Proof.
  split.
  - intros Hne. split; [apply generate_key_total|].
    intros key s' Hcall.
    destruct (generate_key_nonempty _ _ _ _ _ Hne Hcall) as [Hin ->].
    auto using reissue_counters.
  - intros Hemp k key s' Hk Hcall.
    assert (Hpool : deleted_ids (delete_id k s) = {[k]}).
    { unfold delete_id. rewrite decide_True by exact Hk. simpl.
      rewrite Hemp. set_solver. }
    assert (Hne : deleted_ids (delete_id k s) ≠ ∅).
    { rewrite Hpool. set_solver. }
    destruct (generate_key_nonempty _ _ _ _ _ Hne Hcall) as [Hin _].
    rewrite Hpool in Hin. set_solver.
Qed.

Lemma C4_recycled_keys_first_witness :
  deleted_ids two_released ≠ ∅
  ∧ ∃ key s', generate_key 1 "0" two_released key s'.
Proof.
  assert (Hne : deleted_ids two_released ≠ ∅).
  { intros Hemp.
    assert (Hin : "00" ∈ deleted_ids two_released)
      by (apply (bool_decide_unpack _); vm_compute; exact I).
    rewrite Hemp in Hin. set_solver. }
  split; [exact Hne|].
  exact (proj1 (proj1 (C4_recycled_keys_first 1 "0" two_released) Hne)).
Defined.



(** Under a suffix that matches no index, [MAX] stays at the
    sentinel's 0. *)
Lemma steps_sentinel (REPLICAS : nat) (host_suffix : string)
      (s0 : State) (tr : list event) (s : State) :
  (∀ len, generate_anchor REPLICAS host_suffix len = (-1, 0)) →
  steps REPLICAS host_suffix s0 tr s → MAX s0 = 0 → MAX s = 0.
Proof.
  intros Hsent. induction 1 as [|s0 tr s1 e s2 _ IH Hstep]; intros H0; [exact H0|].
  specialize (IH H0). inversion Hstep as [? Hemp|? ? Hin|]; subst.
  - change (MAX (advance REPLICAS host_suffix s1) = 0).
    destruct (Z.lt_ge_cases (key_anchor s1) (MAX s1 - 1)) as [Hc|Hc].
    + rewrite (advance_same _ _ s1 Hc). exact IH.
    + rewrite (advance_expand _ _ s1 Hc). simpl. rewrite Hsent. reflexivity.
  - exact IH.
  - unfold delete_id. case_decide; exact IH.
Qed.

(** C7, the claim as stated, is false: with [REPLICAS = 0], and with
    one replica whose suffix ["7"] is no index below 1, the module
    initialises and the first [generate_key()] returns ["000"]. *)
Lemma C7_counterexample :
  generate_key 0 "0" (init 0 "0") "000" (mint 0 "0" (init 0 "0")).2
  ∧ generate_key 1 "7" (init 1 "7") "000" (mint 1 "7" (init 1 "7")).2.
Proof.
  split; apply generate_key_fresh_eq; vm_compute; reflexivity.
Qed.

(** C7, amended.  With [REPLICAS = 0], or a suffix that is not the
    numeral of an index below [REPLICAS], nothing refuses to start:
    the partitioner returns the sentinel (-1, 0) at every length, every
    [generate_key()] returns, and every call on the fresh path adds one
    symbol to the length and returns the key of that many ['0']. *)
Theorem C7_invalid_identity_still_allocates (REPLICAS : nat)
        (host_suffix : string) :
  (∀ i, (i < REPLICAS)%nat → host_suffix ≠ str i) →
  (∀ len, generate_anchor REPLICAS host_suffix len = (-1, 0))
  ∧ (∀ tr s, run REPLICAS host_suffix tr s →
       ∃ key s', generate_key REPLICAS host_suffix s key s')
  ∧ (∀ tr s key s',
       run REPLICAS host_suffix tr s → deleted_ids s = ∅ →
       generate_key REPLICAS host_suffix s key s' →
       key = zeros (S (KEY_LENGTH s)) ∧ KEY_LENGTH s' = S (KEY_LENGTH s)).
Proof.
  intros Hno.
  assert (Hsent : ∀ len, generate_anchor REPLICAS host_suffix len = (-1, 0))
    by (intros len; apply generate_anchor_invalid, Hno).
  split; [exact Hsent|]. split; [intros tr s _; apply generate_key_total|].
  intros tr s key s' Hrun Hemp Hcall.
  apply generate_key_empty in Hcall as [-> ->]; [|exact Hemp].
  assert (Hmax : MAX s = 0).
  { apply (steps_sentinel _ _ _ _ _ Hsent Hrun).
    pose proof (init_counters REPLICAS host_suffix) as Hc.
    unfold counters in Hc. injection Hc as _ _ Hm.
    rewrite Hm, Hsent. reflexivity. }
  destruct (steps_minted_fresh _ _ _ _ _ Hrun
              (init_in_space REPLICAS host_suffix)) as ((Hlo & _) & _).
  rewrite mint_key.
  change (KEY_LENGTH (mint REPLICAS host_suffix s).2)
    with (KEY_LENGTH (advance REPLICAS host_suffix s)).
  rewrite (advance_expand _ _ s) by lia. simpl.
  rewrite Hsent. simpl. split; [apply (encode_zero (S (KEY_LENGTH s)))|reflexivity].
Qed.

Lemma C7_invalid_identity_still_allocates_witness :
  generate_anchor 1 "7" 2 = (-1, 0)
  ∧ ∃ key s', generate_key 1 "7" (init 1 "7") key s'.
Proof.
  assert (Hno : ∀ i, (i < 1)%nat → "7"%string ≠ str i).
  { intros i Hi. assert (i = 0%nat) as -> by lia. discriminate. }
  split.
  - exact (proj1 (C7_invalid_identity_still_allocates 1 "7" Hno) 2%nat).
  - exact (proj1 (proj2 (C7_invalid_identity_still_allocates 1 "7" Hno))
             [] (init 1 "7") (steps_nil _ _ _)).
Defined.

(** C8, the claim as stated, is false: the conversion accepts 1296,
    which is outside [0, 36^2), and returns ["00"], the key of 0. *)
Lemma C8_counterexample :
  (¬ 1296 < DIGIT_LENGTH ^ 2)
  ∧ encode 1296 2 = "00"%string
  ∧ encode 0 2 = "00"%string.
Proof.
  split; [vm_compute; discriminate|]. split; vm_compute; reflexivity.
Qed.

(** C8, amended.  The conversion has no domain check.  For every
    integer and every length each alphabet lookup succeeds, the result
    has exactly [length] symbols, and it is the key of the value reduced
    modulo [36^length]: out-of-range values wrap. *)
Theorem C8_encode_wraps_silently (v : Z) (len : nat) :
  Forall (fun k => String.get (Z.to_nat k) chars_and_nums = Some (char_at k))
         (key_indices v len)
  ∧ String.length (encode v len) = len
  ∧ encode v len = encode (v mod DIGIT_LENGTH ^ Z.of_nat len) len
  ∧ 0 ≤ v mod DIGIT_LENGTH ^ Z.of_nat len < DIGIT_LENGTH ^ Z.of_nat len.
Proof.
  split.
  - eapply Forall_impl; [apply key_indices_in_range|].
    intros k Hk. apply char_at_get, Hk.
  - split; [apply encode_length|]. split; [apply encode_wraps|].
    apply Z.mod_pos_bound, pow36_pos.
Qed.

(** C9.  For every length at least 1 and every value of that many
    symbols, decoding the key gives the value back, and two such
    values with the same key are equal: the encoding used when minting
    is injective on [0, 36^L) for each [L]. *)
Theorem C9_round_trip (L : nat) (v : Z) :
  (1 ≤ L)%nat → 0 ≤ v < DIGIT_LENGTH ^ Z.of_nat L →
  decode (encode v L) = v
  ∧ ∀ w : Z, 0 ≤ w < DIGIT_LENGTH ^ Z.of_nat L →
             encode v L = encode w L → v = w.
Proof.
  intros _ Hv. split; [apply decode_encode, Hv|].
  intros w Hw Heq. exact (encode_inj v w L Hv Hw Heq).
Qed.

Lemma C9_round_trip_witness :
  ((1 ≤ 2)%nat ∧ 0 ≤ 648 < DIGIT_LENGTH ^ Z.of_nat 2)
  ∧ encode 648 2 = "i0"%string
  ∧ decode (encode 648 2) = 648.
Proof.
  assert (H : 0 ≤ 648 < DIGIT_LENGTH ^ Z.of_nat 2)
    by (vm_compute; split; [discriminate|reflexivity]).
  split; [split; [lia|exact H]|]. split; [vm_compute; reflexivity|].
  exact (proj1 (C9_round_trip 2 648 ltac:(lia) H)).
Defined.

(** C10.  In every state the service can reach, [active_ids] and
    [deleted_ids] are disjoint; a [generate_key()] leaves the key it
    returns in [active_ids] and not in [deleted_ids], and a
    [delete_id()] of an active key moves it from [active_ids] to
    [deleted_ids]. *)
Theorem C10_active_deleted_disjoint (REPLICAS : nat) (host_suffix : string)
        (tr : list event) (s : State) :
  run REPLICAS host_suffix tr s →
  active_ids s ## deleted_ids s
  ∧ (∀ key s', generate_key REPLICAS host_suffix s key s' →
       key ∈ active_ids s' ∧ (key ∉ deleted_ids s')
       ∧ active_ids s' ## deleted_ids s')
  ∧ (∀ k, k ∈ active_ids s →
       (k ∉ active_ids (delete_id k s)) ∧ k ∈ deleted_ids (delete_id k s)
       ∧ active_ids (delete_id k s) ## deleted_ids (delete_id k s)).
Proof.
  intros Hrun.
  assert (Hd : active_ids s ## deleted_ids s).
  { apply (steps_disjoint _ _ _ _ _ Hrun).
    destruct (init_sets REPLICAS host_suffix) as [-> ->]. set_solver. }
  split; [exact Hd|]. split.
  - intros key s' Hcall.
    assert (Hd' : active_ids s' ## deleted_ids s').
    { apply generate_key_step in Hcall as [Hstep|Hstep];
        exact (step_disjoint _ _ _ _ _ Hstep Hd). }
    split; [|split; [|exact Hd']].
    + inversion Hcall as [s0 k Hin|s0 Hemp]; subst.
      * unfold reissue. simpl. set_solver.
      * rewrite mint_active. set_solver.
    + inversion Hcall as [s0 k Hin|s0 Hemp]; subst.
      * unfold reissue. simpl. set_solver.
      * rewrite mint_deleted, Hemp. set_solver.
  - intros k Hk.
    pose proof (step_disjoint _ _ _ _ _ (step_release REPLICAS host_suffix s k) Hd)
      as Hd'.
    split; [|split; [|exact Hd']].
    + unfold delete_id. rewrite decide_True by exact Hk. simpl. set_solver.
    + unfold delete_id. rewrite decide_True by exact Hk. simpl. set_solver.
Qed.

Lemma C10_active_deleted_disjoint_witness :
  run 1 "0" two_released_trace two_released
  ∧ active_ids two_released ## deleted_ids two_released.
Proof.
  split; [exact two_released_run|].
  exact (proj1 (C10_active_deleted_disjoint 1 "0" _ _ two_released_run)).
Defined.


(** ** Further properties of the allocator *)

Lemma char_at_in_alphabet (k : Z) :
  0 ≤ k < DIGIT_LENGTH → In (char_at k) (list_ascii_of_string chars_and_nums).
Proof.
  intros Hk. destruct (small_index_cases k Hk) as (n & -> & Hn).
  clear Hk. revert n Hn. apply List.Forall_forall.
  repeat (constructor; [vm_compute; tauto|]). constructor.
Qed.

Lemma encode_alphabet (v : Z) (len : nat) : alphabet_key (encode v len).
Proof.
  unfold alphabet_key, encode, join_key.
  rewrite list_ascii_of_string_of_list_ascii. apply Forall_map.
  eapply Forall_impl; [apply key_indices_in_range|].
  intros k Hk. apply char_at_in_alphabet, Hk.
Qed.

Lemma minted_keys_minted (tr : list event) (key : string) :
  minted_keys (tr ++ [Minted key]) = minted_keys tr ++ [key].
Proof. unfold minted_keys. rewrite omap_app. reflexivity. Qed.

Lemma minted_keys_reissued (tr : list event) (key : string) :
  minted_keys (tr ++ [Reissued key]) = minted_keys tr.
Proof. unfold minted_keys. rewrite omap_app. apply app_nil_r. Qed.

Lemma minted_keys_released (tr : list event) (key : string) :
  minted_keys (tr ++ [Released key]) = minted_keys tr.
Proof. unfold minted_keys. rewrite omap_app. apply app_nil_r. Qed.

Section Conservation.

Variable REPLICAS : nat.
Variable host_suffix : string.

Local Abbreviation mint := (mint REPLICAS host_suffix).
Local Abbreviation generate_key := (generate_key REPLICAS host_suffix).
Local Abbreviation step := (step REPLICAS host_suffix).
Local Abbreviation steps := (steps REPLICAS host_suffix).
Local Abbreviation run := (run REPLICAS host_suffix).
Local Abbreviation mint_n := (mint_n REPLICAS host_suffix).
Local Abbreviation init := (init REPLICAS host_suffix).

(** The two sets together hold the keys they held at the start and
    the keys minted since. *)
Lemma steps_conservation (s0 : State) (tr : list event) (s : State) :
  steps s0 tr s →
  active_ids s ∪ deleted_ids s
  = active_ids s0 ∪ deleted_ids s0 ∪ list_to_set (minted_keys tr).
Proof.
  induction 1 as [s0|s0 tr s1 e s2 _ IH Hstep].
  - simpl. set_solver.
  - inversion Hstep as [? Hemp|? key Hin|? key]; subst.
    + rewrite minted_keys_minted, list_to_set_app_L.
      rewrite mint_active, mint_deleted. set_solver.
    + rewrite minted_keys_reissued, <- IH. unfold reissue. simpl.
      apply set_eq. intros x. destruct (decide (x = key)); set_solver.
    + rewrite minted_keys_released, <- IH.
      unfold delete_id. case_decide; [|reflexivity]. simpl.
      apply set_eq. intros x. destruct (decide (x = key)); set_solver.
Qed.

Lemma run_conservation (tr : list event) (s : State) :
  run tr s → active_ids s ∪ deleted_ids s = list_to_set (minted_keys tr).
Proof.
  intros Hrun. rewrite (steps_conservation _ _ _ Hrun).
  destruct (init_sets REPLICAS host_suffix) as [-> ->]. set_solver.
Qed.

Lemma run_disjoint (tr : list event) (s : State) :
  run tr s → active_ids s ## deleted_ids s.
Proof.
  intros Hrun. apply (steps_disjoint _ _ _ _ _ Hrun).
  destruct (init_sets REPLICAS host_suffix) as [-> ->]. set_solver.
Qed.

Lemma run_invariant (tr : list event) (s : State) :
  run tr s →
  in_space s ∧ Forall (issued_before s) (minted_keys tr)
  ∧ NoDup (minted_keys tr).
Proof.
  intros Hrun.
  exact (steps_minted_fresh _ _ _ _ _ Hrun (init_in_space REPLICAS host_suffix)).
Qed.

(** What a fresh call does to the counters, and the key it returns,
    depend on the counters only. *)
Lemma mint_counters_only (s t : State) :
  counters s = counters t →
  (mint s).1 = (mint t).1 ∧ counters (mint s).2 = counters (mint t).2.
Proof.
  intros Hc. unfold counters in Hc. injection Hc as Ha Hl Hm.
  rewrite !mint_key, !mint_counters. unfold counters, advance.
  rewrite Ha, Hl, Hm. destruct (key_anchor t >=? MAX t - 1).
  - destruct (generate_anchor REPLICAS host_suffix (S (KEY_LENGTH t))).
    simpl. auto.
  - simpl. rewrite Ha, Hl, Hm. auto.
Qed.

(** Releases and reissues do not move the cursor: the fresh keys of a
    run are the first keys of the sequence that fresh calls alone
    produce. *)
Lemma steps_fresh_sequence (tr : list event) (s : State) :
  run tr s →
  minted_keys tr = (mint_n (length (minted_keys tr)) init).1
  ∧ counters s = counters (mint_n (length (minted_keys tr)) init).2.
Proof.
  unfold run. generalize init. intros s0.
  induction 1 as [s0|s0 tr s1 e s2 _ [IHk IHc] Hstep]; [auto|].
  inversion Hstep as [? Hemp|? key Hin|? key]; subst.
  - rewrite minted_keys_minted.
    rewrite length_app, Nat.add_1_r, mint_n_snoc. cbn [fst snd length].
    destruct (mint_counters_only _ _ IHc) as [Hk Hc].
    rewrite <- IHk, Hk, Hc. auto.
  - rewrite minted_keys_reissued, reissue_counters. auto.
  - rewrite minted_keys_released, delete_id_counters. auto.
Qed.

End Conservation.

(** ** A replica and its block *)

Section Blocks.

Variable REPLICAS : nat.
Variable i : nat.
Hypothesis Hi : (i < REPLICAS)%nat.

Local Abbreviation advance := (advance REPLICAS (str i)).
Local Abbreviation mint := (mint REPLICAS (str i)).
Local Abbreviation steps := (steps REPLICAS (str i)).
Local Abbreviation init := (init REPLICAS (str i)).

Lemma block_state_init : block_state REPLICAS i init.
Proof.
  pose proof (init_counters REPLICAS (str i)) as Hc.
  rewrite (generate_anchor_valid REPLICAS i 2 Hi) in Hc.
  unfold counters in Hc. simpl in Hc. injection Hc as Ha Hl Hm.
  unfold block_state. rewrite Ha, Hl, Hm. split; [lia|]. split; lia.
Qed.

(** The value a fresh call encodes lies in the block of the length it
    is encoded at. *)
Lemma advance_block (s : State) :
  block_state REPLICAS i s →
  block_state REPLICAS i (advance s)
  ∧ (((3 ≤ KEY_LENGTH (advance s))%nat
      ∧ key_anchor (advance s)
        = ID_SPACE REPLICAS (KEY_LENGTH (advance s)) * Z.of_nat i)
     ∨ (ID_SPACE REPLICAS (KEY_LENGTH (advance s)) * Z.of_nat i
        ≤ key_anchor (advance s)
        ∧ key_anchor (advance s)
          ≤ ID_SPACE REPLICAS (KEY_LENGTH (advance s)) * (Z.of_nat i + 1) - 2)).
Proof.
  intros (Hlen & Hmax & Hlo).
  destruct (Z.lt_ge_cases (key_anchor s) (MAX s - 1)) as [Hc|Hc].
  - rewrite (advance_same _ _ s Hc). unfold block_state. simpl.
    split; [split; [exact Hlen|split; [exact Hmax|lia]]|]. right. lia.
  - rewrite (advance_expand _ _ s Hc). unfold block_state. simpl.
    rewrite (generate_anchor_valid REPLICAS i (S (KEY_LENGTH s)) Hi). simpl.
    split; [split; [lia|split; lia]|]. left. split; [lia|lia].
Qed.

Lemma block_state_counters (s s' : State) :
  counters s' = counters s →
  block_state REPLICAS i s → block_state REPLICAS i s'.
Proof.
  unfold counters, block_state. intros [= Ha Hl Hm]. rewrite Ha, Hl, Hm. trivial.
Qed.

(** Along any sequence of calls, every fresh key encodes a value of
    the replica's own block. *)
Lemma steps_in_block (s0 : State) (tr : list event) (s : State) :
  steps s0 tr s → block_state REPLICAS i s0 →
  block_state REPLICAS i s ∧ Forall (in_block REPLICAS i) (minted_keys tr).
Proof.
  induction 1 as [s0|s0 tr s1 e s2 _ IH Hstep]; intros H0.
  - split; [exact H0|constructor].
  - destruct (IH H0) as [Hs1 Hkeys].
    inversion Hstep as [? Hemp|? key Hin|? key]; subst.
    + destruct (advance_block s1 Hs1) as [Hs2 Hval].
      rewrite minted_keys_minted. split.
      * apply (block_state_counters (advance s1)); [apply mint_counters|exact Hs2].
      * apply Forall_app. split; [exact Hkeys|]. constructor; [|constructor].
        exists (key_anchor (advance s1)), (KEY_LENGTH (advance s1)).
        split; [apply mint_key|]. split; [apply Hs2|exact Hval].
    + rewrite minted_keys_reissued. split; [|exact Hkeys].
      apply (block_state_counters s1); [apply reissue_counters|exact Hs1].
    + rewrite minted_keys_released. split; [|exact Hkeys].
      apply (block_state_counters s1); [apply delete_id_counters|exact Hs1].
Qed.

Lemma run_in_block (tr : list event) (s : State) :
  run REPLICAS (str i) tr s → Forall (in_block REPLICAS i) (minted_keys tr).
Proof.
  intros Hrun. exact (proj2 (steps_in_block _ _ _ Hrun block_state_init)).
Qed.

(** A value of the block is a value of the length. *)
Lemma block_value_range (v : Z) (len : nat) :
  ((3 ≤ len)%nat ∧ v = ID_SPACE REPLICAS len * Z.of_nat i)
  ∨ (ID_SPACE REPLICAS len * Z.of_nat i ≤ v
     ∧ v ≤ ID_SPACE REPLICAS len * (Z.of_nat i + 1) - 2) →
  0 ≤ v < DIGIT_LENGTH ^ Z.of_nat len.
Proof.
  pose proof (ID_SPACE_nonneg REPLICAS len) as Hnn.
  pose proof (ID_SPACE_total REPLICAS len) as Htot.
  pose proof (pow36_pos len) as Hpos.
  intros [[_ ->]|[Hlo Hhi]]; nia.
Qed.

End Blocks.

(** Up to [36^3] replicas, a block from length 3 on is not empty. *)
Lemma ID_SPACE_positive (REPLICAS len : nat) :
  (1 ≤ REPLICAS)%nat → Z.of_nat REPLICAS ≤ DIGIT_LENGTH ^ 3 → (3 ≤ len)%nat →
  1 ≤ ID_SPACE REPLICAS len.
Proof.
  intros Hone Hmany Hlen. unfold ID_SPACE.
  assert (Hmono : DIGIT_LENGTH ^ 3 ≤ DIGIT_LENGTH ^ Z.of_nat len).
  { apply Z.pow_le_mono_r; [rewrite DIGIT_LENGTH_eq|]; lia. }
  apply Z.div_le_lower_bound; lia.
Qed.

(** ** The length and the limit of the block *)

Section BelowLimit.

Variable REPLICAS : nat.
Variable i : nat.
Hypothesis Hi : (i < REPLICAS)%nat.
Hypothesis Hsize : 2 ≤ ID_SPACE REPLICAS 2.

Lemma ID_SPACE_at_least_two (len : nat) :
  (2 ≤ len)%nat → 2 ≤ ID_SPACE REPLICAS len.
Proof.
  intros Hlen. etransitivity; [exact Hsize|]. unfold ID_SPACE.
  apply Z.div_le_mono; [lia|].
  apply Z.pow_le_mono_r; [rewrite DIGIT_LENGTH_eq|]; lia.
Qed.

Lemma advance_below_limit (s : State) :
  block_state REPLICAS i s → key_anchor s < MAX s →
  key_anchor (advance REPLICAS (str i) s) < MAX (advance REPLICAS (str i) s).
Proof.
  intros (Hlen & Hmax & Hlo) Hbelow.
  destruct (Z.lt_ge_cases (key_anchor s) (MAX s - 1)) as [Hc|Hc].
  - rewrite (advance_same _ _ s Hc). simpl. lia.
  - rewrite (advance_expand _ _ s Hc). simpl.
    rewrite (generate_anchor_valid REPLICAS i (S (KEY_LENGTH s)) Hi). simpl.
    pose proof (ID_SPACE_at_least_two (S (KEY_LENGTH s)) ltac:(lia)). lia.
Qed.

(** With blocks of at least two integers the cursor never reaches the
    limit: the expansion always comes first. *)
Lemma run_below_limit (tr : list event) (s : State) :
  run REPLICAS (str i) tr s → key_anchor s < MAX s.
Proof.
  unfold run.
  assert (Hinit : key_anchor (init REPLICAS (str i))
                  < MAX (init REPLICAS (str i))).
  { pose proof (init_counters REPLICAS (str i)) as Hc.
    rewrite (generate_anchor_valid REPLICAS i 2 Hi) in Hc.
    unfold counters in Hc. simpl in Hc. injection Hc as Ha Hl Hm. lia. }
  pose proof (block_state_init REPLICAS i Hi) as Hblock.
  revert Hinit Hblock. generalize (init REPLICAS (str i)).
  intros s0 Hinit Hblock Hrun. revert Hinit Hblock.
  induction Hrun as [s0|s0 tr s1 e s2 Hsteps IH Hstep]; intros Hinit Hblock.
  - exact Hinit.
  - specialize (IH Hinit Hblock).
    pose proof (proj1 (steps_in_block REPLICAS i Hi _ _ _ Hsteps Hblock))
      as Hblock1.
    inversion Hstep as [? Hemp|? key Hin|? key]; subst.
    + exact (advance_below_limit s1 Hblock1 IH).
    + exact IH.
    + pose proof (delete_id_counters key s1) as Hc.
      unfold counters in Hc. injection Hc as Ha _ Hm. rewrite Ha, Hm. exact IH.
Qed.

End BelowLimit.

(** C6.  The length never decreases, but it does not wait for the
    cursor to reach the limit.  For a replica with a valid index whose
    blocks have at least two integers, in every reachable state the
    cursor [key_anchor + 1] is below the limit [MAX + 1]; a call of
    [generate_key()] always returns, and it adds one symbol exactly
    when the pool is empty and the cursor is one below the limit
    ([key_anchor + 1 = MAX]); every other call leaves the length as it
    is. *)
Theorem C6_length_grows_before_the_limit (REPLICAS i : nat)
        (tr : list event) (s : State) :
  (i < REPLICAS)%nat → 2 ≤ ID_SPACE REPLICAS 2 →
  run REPLICAS (str i) tr s →
  (∀ tr' s'', steps REPLICAS (str i) s tr' s'' →
     (KEY_LENGTH s ≤ KEY_LENGTH s'')%nat)
  ∧ key_anchor s + 1 < MAX s + 1
  ∧ (∃ key s', generate_key REPLICAS (str i) s key s')
  ∧ (∀ key s', generate_key REPLICAS (str i) s key s' →
       KEY_LENGTH s'
       = if decide (deleted_ids s = ∅ ∧ key_anchor s + 1 = MAX s)
         then S (KEY_LENGTH s) else KEY_LENGTH s).
Proof.
  intros Hi Hsize Hrun.
  pose proof (run_below_limit REPLICAS i Hi Hsize tr s Hrun) as Hbelow.
  split; [intros tr' s'' Hsteps; exact (steps_length_mono _ _ _ _ _ Hsteps)|].
  split; [lia|]. split; [apply generate_key_total|].
  intros key s' Hcall. inversion Hcall as [s0 k Hin|s0 Hemp]; subst.
  - rewrite decide_False by set_solver. reflexivity.
  - change (KEY_LENGTH (mint REPLICAS (str i) s).2)
      with (KEY_LENGTH (advance REPLICAS (str i) s)).
    destruct (Z.lt_ge_cases (key_anchor s) (MAX s - 1)) as [Hc|Hc].
    + rewrite (advance_same _ _ s Hc), decide_False by lia. reflexivity.
    + rewrite (advance_expand _ _ s Hc), decide_True by (split; [auto|lia]).
      reflexivity.
Qed.

Lemma C6_length_grows_before_the_limit_witness :
  (run 1 (str 0) (map Minted (mint_n 1 (str 0) 1295 (init 1 (str 0))).1)
       (mint_n 1 (str 0) 1295 (init 1 (str 0))).2
   ∧ counters (mint_n 1 (str 0) 1295 (init 1 (str 0))).2 = (1294, 2%nat, 1295)
   ∧ deleted_ids (mint_n 1 (str 0) 1295 (init 1 (str 0))).2 = ∅)
  ∧ KEY_LENGTH (mint 1 (str 0) (mint_n 1 (str 0) 1295 (init 1 (str 0))).2).2
    = 3%nat.
Proof.
  pose proof (run_mint_n 1 (str 0) 1295) as Hrun.
  assert (Hemp : deleted_ids (mint_n 1 (str 0) 1295 (init 1 (str 0))).2 = ∅)
    by (vm_compute; reflexivity).
  split; [split; [exact Hrun|split; [vm_compute; reflexivity|exact Hemp]]|].
  rewrite (proj2 (proj2 (proj2
    (C6_length_grows_before_the_limit 1 0 _ _ ltac:(lia)
       ltac:(vm_compute; discriminate) Hrun)))
    _ _ (gk_fresh 1 (str 0) _ Hemp)).
  rewrite decide_True by (split; [exact Hemp|vm_compute; reflexivity]).
  vm_compute. reflexivity.
Defined.

Lemma steps_minted_min_length (REPLICAS : nat) (host_suffix : string)
      (s0 : State) (tr : list event) (s : State) :
  steps REPLICAS host_suffix s0 tr s →
  Forall (fun key => (KEY_LENGTH s0 ≤ String.length key)%nat) (minted_keys tr).
Proof.
  induction 1 as [s0|s0 tr s1 e s2 Hsteps IH Hstep]; [constructor|].
  inversion Hstep as [? Hemp|? key Hin|? key]; subst.
  - rewrite minted_keys_minted. apply Forall_app. split; [exact IH|].
    constructor; [|constructor].
    rewrite mint_key, encode_length.
    pose proof (steps_length_mono _ _ _ _ _ Hsteps) as Hmono.
    destruct (step_length _ _ _ _ _ Hstep) as [Hl|Hl];
      change (KEY_LENGTH (mint REPLICAS host_suffix s1).2)
        with (KEY_LENGTH (advance REPLICAS host_suffix s1)) in Hl; lia.
  - rewrite minted_keys_reissued. exact IH.
  - rewrite minted_keys_released. exact IH.
Qed.

Lemma mint_n_take (REPLICAS : nat) (host_suffix : string) (n m : nat)
      (s : State) :
  (mint_n REPLICAS host_suffix n s).1
  = take n (mint_n REPLICAS host_suffix (n + m) s).1.
Proof.
  revert s. induction n as [|n IH]; intros s; [reflexivity|].
  change (S n + m)%nat with (S (n + m)). rewrite !mint_n_succ.
  cbn [fst take]. f_equal. apply IH.
Qed.

(** X1.  With at most [36^3] replicas, two replicas with different
    indices never mint the same fresh key, whatever calls each of them
    serves; so the keys one of them holds, active or released, are
    never held by the other. *)
Theorem X1_replicas_never_share_a_key (REPLICAS i j : nat)
        (tr_i tr_j : list event) (s_i s_j : State) :
  Z.of_nat REPLICAS ≤ DIGIT_LENGTH ^ 3 →
  (i < REPLICAS)%nat → (j < REPLICAS)%nat → i ≠ j →
  run REPLICAS (str i) tr_i s_i → run REPLICAS (str j) tr_j s_j →
  (∀ key, key ∈ minted_keys tr_i → key ∉ minted_keys tr_j)
  ∧ (active_ids s_i ∪ deleted_ids s_i) ## (active_ids s_j ∪ deleted_ids s_j).
Proof.
  intros Hmany Hi Hj Hij Hrun_i Hrun_j.
  assert (Hfresh : ∀ key, key ∈ minted_keys tr_i → key ∉ minted_keys tr_j).
  { intros key Hin_i Hin_j.
    pose proof (run_in_block REPLICAS i Hi _ _ Hrun_i) as Hblock_i.
    pose proof (run_in_block REPLICAS j Hj _ _ Hrun_j) as Hblock_j.
    rewrite Forall_forall in Hblock_i, Hblock_j.
    destruct (Hblock_i key Hin_i) as (v & len & Hkey_i & Hlen_i & Hv).
    destruct (Hblock_j key Hin_j) as (w & len' & Hkey_j & Hlen_j & Hw).
    assert (len' = len) as ->.
    { rewrite <- (encode_length v len), <- (encode_length w len'). congruence. }
    pose proof (block_value_range REPLICAS i Hi v len Hv) as Hv_range.
    pose proof (block_value_range REPLICAS j Hj w len Hw) as Hw_range.
    assert (w = v) as ->.
    { apply (encode_inj w v len Hw_range Hv_range). congruence. }
    pose proof (ID_SPACE_nonneg REPLICAS len) as Hnn.
    assert (Hpos : (3 ≤ len)%nat → 1 ≤ ID_SPACE REPLICAS len).
    { apply ID_SPACE_positive; [lia|exact Hmany]. }
    assert (Hi_in : ID_SPACE REPLICAS len * Z.of_nat i ≤ v
                    ∧ v < ID_SPACE REPLICAS len * (Z.of_nat i + 1)).
    { destruct Hv as [[H3 ->]|[Hlo Hhi]]; [specialize (Hpos H3)|]; lia. }
    assert (Hj_in : ID_SPACE REPLICAS len * Z.of_nat j ≤ v
                    ∧ v < ID_SPACE REPLICAS len * (Z.of_nat j + 1)).
    { destruct Hw as [[H3 Heq]|[Hlo Hhi]]; [specialize (Hpos H3)|]; lia. }
    assert (Hcases : (i < j ∨ j < i)%nat) by lia.
    destruct Hcases; nia. }
  split; [exact Hfresh|].
  rewrite (run_conservation _ _ _ _ Hrun_i), (run_conservation _ _ _ _ Hrun_j).
  intros key Hin_i Hin_j. apply elem_of_list_to_set in Hin_i, Hin_j.
  exact (Hfresh key Hin_i Hin_j).
Qed.

Lemma X1_replicas_never_share_a_key_witness :
  (run 648 (str 0) example_trace example_state
   ∧ run 648 (str 1) (map Minted (mint_n 648 (str 1) 2 (init 648 (str 1))).1)
         (mint_n 648 (str 1) 2 (init 648 (str 1))).2
   ∧ minted_keys example_trace = ["00"; "000"]%string
   ∧ (mint_n 648 (str 1) 2 (init 648 (str 1))).1 = ["02"; "020"]%string)
  ∧ (active_ids example_state ∪ deleted_ids example_state)
    ## (active_ids (mint_n 648 (str 1) 2 (init 648 (str 1))).2
        ∪ deleted_ids (mint_n 648 (str 1) 2 (init 648 (str 1))).2).
Proof.
  assert (Hrun0 : run 648 (str 0) example_trace example_state)
    by exact example_run.
  pose proof (run_mint_n 648 (str 1) 2) as Hrun1.
  split.
  - split; [exact Hrun0|]. split; [exact Hrun1|].
    split; [reflexivity|vm_compute; reflexivity].
  - exact (proj2 (X1_replicas_never_share_a_key 648 0 1 _ _ _ _
                    ltac:(vm_compute; discriminate) ltac:(lia) ltac:(lia)
                    ltac:(lia) Hrun0 Hrun1)).
Defined.

(** X2.  With more than [36^3] replicas the blocks at lengths 2 and 3
    are empty ([ID_SPACE] is 0 there), and the first call of every
    replica returns, and returns ["000"]. *)
Theorem X2_too_many_replicas_collide (REPLICAS i : nat) :
  DIGIT_LENGTH ^ 3 < Z.of_nat REPLICAS → (i < REPLICAS)%nat →
  ID_SPACE REPLICAS 2 = 0
  ∧ ID_SPACE REPLICAS 3 = 0
  ∧ (∃ key s',
       generate_key REPLICAS (str i) (init REPLICAS (str i)) key s')
  ∧ (∀ key s',
       generate_key REPLICAS (str i) (init REPLICAS (str i)) key s' →
       key = "000"%string).
Proof.
  intros Hmany Hi.
  assert (H2 : ID_SPACE REPLICAS 2 = 0).
  { unfold ID_SPACE. apply Z.div_small. rewrite DIGIT_LENGTH_eq in *. lia. }
  assert (H3 : ID_SPACE REPLICAS 3 = 0).
  { unfold ID_SPACE. apply Z.div_small. rewrite DIGIT_LENGTH_eq in *. lia. }
  split; [exact H2|]. split; [exact H3|].
  split; [apply generate_key_total|].
  intros key s' Hcall.
  apply generate_key_empty in Hcall as [-> _]; [|apply init_sets].
  pose proof (init_counters REPLICAS (str i)) as Hc.
  rewrite (generate_anchor_valid REPLICAS i 2 Hi) in Hc.
  unfold counters in Hc. simpl in Hc. injection Hc as Ha Hl Hm.
  rewrite H2 in Ha, Hm. rewrite mint_key.
  rewrite (advance_expand _ _ (init REPLICAS (str i))) by lia. simpl.
  rewrite Hl, (generate_anchor_valid REPLICAS i 3 Hi), H3. simpl.
  vm_compute. reflexivity.
Qed.

Lemma X2_too_many_replicas_collide_witness :
  (DIGIT_LENGTH ^ 3 < Z.of_nat (Z.to_nat 46657) ∧ (5 < Z.to_nat 46657)%nat)
  ∧ ID_SPACE (Z.to_nat 46657) 3 = 0
  ∧ (mint (Z.to_nat 46657) (str 5) (init (Z.to_nat 46657) (str 5))).1
    = "000"%string.
Proof.
  assert (Hmany : DIGIT_LENGTH ^ 3 < Z.of_nat (Z.to_nat 46657))
    by (rewrite DIGIT_LENGTH_eq; lia).
  assert (Hi : (5 < Z.to_nat 46657)%nat) by lia.
  split; [split; [exact Hmany|exact Hi]|].
  destruct (X2_too_many_replicas_collide (Z.to_nat 46657) 5 Hmany Hi)
    as (_ & H3 & _ & Hall).
  split; [exact H3|].
  apply (Hall _ (mint (Z.to_nat 46657) (str 5)
                   (init (Z.to_nat 46657) (str 5))).2).
  apply gk_fresh. apply init_sets.
Defined.

(** X3.  In every state the service can reach, [generate_key()] never
    returns a key that is active at the time of the call, on either
    path. *)
Theorem X3_never_hands_out_an_active_key (REPLICAS : nat)
        (host_suffix : string) (tr : list event) (s : State)
        (key : string) (s' : State) :
  run REPLICAS host_suffix tr s →
  generate_key REPLICAS host_suffix s key s' →
  key ∉ active_ids s.
Proof.
  intros Hrun Hcall Hactive.
  pose proof (run_disjoint _ _ _ _ Hrun) as Hdisj.
  inversion Hcall as [s0 k Hin|s0 Hemp]; subst.
  - set_solver.
  - destruct (run_invariant _ _ _ _ Hrun) as (Hspace & Hissued & _).
    apply (mint_not_issued_before REPLICAS host_suffix s Hspace).
    rewrite Forall_forall in Hissued. apply Hissued.
    assert (Hmem : (mint REPLICAS host_suffix s).1
                   ∈ active_ids s ∪ deleted_ids s) by set_solver.
    rewrite (run_conservation _ _ _ _ Hrun) in Hmem.
    apply elem_of_list_to_set in Hmem. exact Hmem.
Qed.

Lemma X3_never_hands_out_an_active_key_witness :
  (run 648 "0" example_trace example_state
   ∧ active_ids example_state = {["00"; "000"]}%string)
  ∧ (mint 648 "0" example_state).1 = "001"%string
  ∧ (mint 648 "0" example_state).1 ∉ active_ids example_state.
Proof.
  split; [split; [exact example_run|vm_compute; reflexivity]|].
  split; [vm_compute; reflexivity|].
  apply (X3_never_hands_out_an_active_key 648 "0" example_trace example_state
           _ (mint 648 "0" example_state).2 example_run).
  apply gk_fresh. vm_compute. reflexivity.
Defined.

(** X4.  No key is lost or invented: in every reachable state the
    active and the released keys together are exactly the keys minted
    so far, and their numbers add up to the number of fresh calls. *)
Theorem X4_keys_are_conserved (REPLICAS : nat) (host_suffix : string)
        (tr : list event) (s : State) :
  run REPLICAS host_suffix tr s →
  active_ids s ∪ deleted_ids s = list_to_set (minted_keys tr)
  ∧ (size (active_ids s) + size (deleted_ids s)
     = length (minted_keys tr))%nat.
Proof.
  intros Hrun.
  pose proof (run_conservation _ _ _ _ Hrun) as Hcons.
  split; [exact Hcons|].
  rewrite <- size_union by exact (run_disjoint _ _ _ _ Hrun).
  rewrite Hcons. apply size_list_to_set.
  exact (proj2 (proj2 (run_invariant _ _ _ _ Hrun))).
Qed.

Lemma X4_keys_are_conserved_witness :
  run 1 "0" two_released_trace two_released
  ∧ (size (active_ids two_released) + size (deleted_ids two_released)
     = 2)%nat.
Proof.
  split; [exact two_released_run|].
  exact (proj2 (X4_keys_are_conserved 1 "0" _ _ two_released_run)).
Defined.

(** X5.  Every key the replica holds, active or released, has at least
    2 and at most [KEY_LENGTH] symbols, all of them from
    [chars_and_nums]. *)
Theorem X5_held_keys_are_well_formed (REPLICAS : nat) (host_suffix : string)
        (tr : list event) (s : State) (key : string) :
  run REPLICAS host_suffix tr s →
  key ∈ active_ids s ∪ deleted_ids s →
  (2 ≤ String.length key ≤ KEY_LENGTH s)%nat ∧ alphabet_key key.
Proof.
  intros Hrun Hheld.
  rewrite (run_conservation _ _ _ _ Hrun) in Hheld.
  apply elem_of_list_to_set in Hheld.
  destruct (run_invariant _ _ _ _ Hrun) as (_ & Hissued & _).
  pose proof (steps_minted_min_length _ _ _ _ _ Hrun) as Hmin.
  rewrite Forall_forall in Hissued, Hmin.
  specialize (Hmin key Hheld).
  destruct (Hissued key Hheld) as (v & len & -> & _ & Hlen).
  pose proof (init_counters REPLICAS host_suffix) as Hc.
  unfold counters in Hc. injection Hc as _ Hl _.
  rewrite Hl in Hmin. rewrite encode_length in *.
  split; [lia|apply encode_alphabet].
Qed.

Lemma X5_held_keys_are_well_formed_witness :
  (run 648 "0" example_trace example_state
   ∧ "000"%string ∈ active_ids example_state ∪ deleted_ids example_state)
  ∧ (2 ≤ String.length "000" ≤ KEY_LENGTH example_state)%nat.
Proof.
  assert (Hin : "000"%string
                ∈ active_ids example_state ∪ deleted_ids example_state)
    by (apply (bool_decide_unpack _); vm_compute; exact I).
  split; [split; [exact example_run|exact Hin]|].
  exact (proj1 (X5_held_keys_are_well_formed 648 "0" _ _ "000"
                  example_run Hin)).
Defined.

(** X6.  Releasing an active key while the pool is empty and then
    calling [generate_key()] returns that key and restores the state
    exactly as it was before the release. *)
Theorem X6_release_then_allocate_restores (REPLICAS : nat)
        (host_suffix : string) (s : State) (k key : string) (s' : State) :
  deleted_ids s = ∅ → k ∈ active_ids s →
  generate_key REPLICAS host_suffix (delete_id k s) key s' →
  key = k ∧ s' = s.
Proof.
  intros Hemp Hk Hcall.
  assert (Hdel : delete_id k s
                 = mkState (key_anchor s) (KEY_LENGTH s) (MAX s)
                           (active_ids s ∖ {[k]}) {[k]}).
  { unfold delete_id. rewrite decide_True by exact Hk. rewrite Hemp.
    f_equal. set_solver. }
  rewrite Hdel in Hcall.
  apply generate_key_nonempty in Hcall as [Hin ->]; [|simpl; set_solver].
  simpl in Hin. apply elem_of_singleton in Hin. subst key.
  split; [reflexivity|]. unfold reissue. simpl. destruct s as [a l m act del].
  simpl in *. subst del. f_equal.
  - apply set_eq. intros x. destruct (decide (x = k)); set_solver.
  - set_solver.
Qed.

Lemma X6_release_then_allocate_restores_witness :
  (deleted_ids (mint 1 "0" (init 1 "0")).2 = ∅
   ∧ "00"%string ∈ active_ids (mint 1 "0" (init 1 "0")).2)
  ∧ reissue "00" (delete_id "00" (mint 1 "0" (init 1 "0")).2)
    = (mint 1 "0" (init 1 "0")).2.
Proof.
  assert (Hemp : deleted_ids (mint 1 "0" (init 1 "0")).2 = ∅)
    by (vm_compute; reflexivity).
  assert (Hin : "00"%string ∈ active_ids (mint 1 "0" (init 1 "0")).2)
    by (apply (bool_decide_unpack _); vm_compute; exact I).
  split; [split; [exact Hemp|exact Hin]|].
  apply (X6_release_then_allocate_restores 1 "0" _ "00" "00" _ Hemp Hin).
  apply gk_recycled. apply (bool_decide_unpack _). vm_compute. exact I.
Defined.

(** X7.  [delete_id] is idempotent: releasing the same key a second
    time changes nothing. *)
Theorem X7_delete_id_idempotent (k : string) (s : State) :
  delete_id k (delete_id k s) = delete_id k s.
Proof.
  unfold delete_id at 2 3. case_decide as Hk.
  - unfold delete_id. simpl. rewrite decide_False by set_solver. reflexivity.
  - unfold delete_id. rewrite decide_False by exact Hk. reflexivity.
Qed.

(** X8.  A replica never issues the last integer of a block that has
    at least two: the key of [ID_SPACE * (i + 1) - 1] at that length is
    never minted, and so is never held. *)
Theorem X8_last_integer_of_block_never_issued (REPLICAS i len : nat)
        (tr : list event) (s : State) :
  (i < REPLICAS)%nat → 2 ≤ ID_SPACE REPLICAS len →
  run REPLICAS (str i) tr s →
  (encode (ID_SPACE REPLICAS len * (Z.of_nat i + 1) - 1) len ∉ minted_keys tr)
  ∧ encode (ID_SPACE REPLICAS len * (Z.of_nat i + 1) - 1) len
    ∉ active_ids s ∪ deleted_ids s.
Proof.
  intros Hi Hsize Hrun.
  assert (Hnot : encode (ID_SPACE REPLICAS len * (Z.of_nat i + 1) - 1) len
                 ∉ minted_keys tr).
  { intros Hin.
    pose proof (run_in_block REPLICAS i Hi _ _ Hrun) as Hblock.
    rewrite Forall_forall in Hblock.
    destruct (Hblock _ Hin) as (v & len' & Hkey & Hlen & Hv).
    assert (len' = len) as ->.
    { rewrite <- (encode_length v len'),
        <- (encode_length (ID_SPACE REPLICAS len * (Z.of_nat i + 1) - 1) len).
      congruence. }
    pose proof (block_value_range REPLICAS i Hi v len Hv) as Hv_range.
    pose proof (ID_SPACE_total REPLICAS len) as Htot.
    assert (Hlast : 0 ≤ ID_SPACE REPLICAS len * (Z.of_nat i + 1) - 1
                    < DIGIT_LENGTH ^ Z.of_nat len) by nia.
    apply (encode_inj _ _ len Hlast Hv_range) in Hkey.
    destruct Hv as [[_ Hv]|[_ Hv]]; lia. }
  split; [exact Hnot|].
  rewrite (run_conservation _ _ _ _ Hrun). rewrite elem_of_list_to_set.
  exact Hnot.
Qed.

Lemma X8_last_integer_of_block_never_issued_witness :
  (2 ≤ ID_SPACE 1 2
   ∧ encode (ID_SPACE 1 2 * (Z.of_nat 0 + 1) - 1) 2 = "zz"%string)
  ∧ encode (ID_SPACE 1 2 * (Z.of_nat 0 + 1) - 1) 2
    ∉ minted_keys (map Minted (mint_n 1 (str 0) 1297 (init 1 (str 0))).1).
Proof.
  split; [split; [vm_compute; discriminate|vm_compute; reflexivity]|].
  exact (proj1 (X8_last_integer_of_block_never_issued 1 0 2 _ _
                  ltac:(lia) ltac:(vm_compute; discriminate)
                  (run_mint_n 1 (str 0) 1297))).
Defined.

(** X9.  The fresh keys of a replica come in one fixed order that no
    release or reissue changes: of two runs of the same configuration,
    the one with fewer fresh calls minted exactly the first keys of the
    other.  A replica started again mints the keys it minted before. *)
Theorem X9_fresh_keys_repeat (REPLICAS : nat) (host_suffix : string)
        (tr1 tr2 : list event) (s1 s2 : State) :
  run REPLICAS host_suffix tr1 s1 → run REPLICAS host_suffix tr2 s2 →
  (length (minted_keys tr1) ≤ length (minted_keys tr2))%nat →
  minted_keys tr1 = take (length (minted_keys tr1)) (minted_keys tr2).
Proof.
  intros Hrun1 Hrun2 Hle.
  destruct (steps_fresh_sequence _ _ _ _ Hrun1) as [Hk1 _].
  destruct (steps_fresh_sequence _ _ _ _ Hrun2) as [Hk2 _].
  rewrite Hk2 at 1. rewrite Hk1 at 1.
  replace (length (minted_keys tr2))
    with (length (minted_keys tr1)
          + (length (minted_keys tr2) - length (minted_keys tr1)))%nat
    at 1 by lia.
  apply mint_n_take.
Qed.

Lemma X9_fresh_keys_repeat_witness :
  (run 648 "0" (map Minted (mint_n 648 "0" 1 (init 648 "0")).1)
       (mint_n 648 "0" 1 (init 648 "0")).2
   ∧ run 648 "0" example_trace example_state)
  ∧ minted_keys (map Minted (mint_n 648 "0" 1 (init 648 "0")).1)
    = take 1 (minted_keys example_trace).
Proof.
  split; [split; [apply run_mint_n|exact example_run]|].
  exact (X9_fresh_keys_repeat 648 "0" _ _ _ _
           (run_mint_n 648 "0" 1) example_run ltac:(vm_compute; lia)).
Defined.

(** ** The decorator [token_required] *)

Lemma split_space_nonempty (s : string) : split_space s ≠ [].
Proof.
  destruct s as [|c rest]; simpl; [discriminate|].
  destruct (Ascii.eqb c " "); [discriminate|].
  destruct (split_space rest); discriminate.
Qed.

Lemma split_space_free (s : string) : space_free s → split_space s = [s].
Proof.
  induction s as [|c rest IH]; [reflexivity|].
  intros [Hc Hrest]. simpl.
  destruct (Ascii.eqb_spec c " ") as [->|_]; [contradiction|].
  rewrite (IH Hrest). reflexivity.
Qed.

Lemma split_space_append (a b : string) :
  space_free a →
  split_space (String.append a (String " " b)) = a :: split_space b.
Proof.
  induction a as [|c rest IH]; [reflexivity|].
  intros [Hc Hrest]. simpl.
  destruct (Ascii.eqb_spec c " ") as [->|_]; [contradiction|].
  rewrite (IH Hrest). reflexivity.
Qed.

Lemma split_space_one (s b : string) :
  split_space s = [b] → s = b ∧ space_free b.
Proof.
  revert b. induction s as [|c rest IH]; intros b; simpl.
  - intros [= <-]. split; [reflexivity|exact I].
  - destruct (Ascii.eqb_spec c " ") as [->|Hc].
    + intros [= _ Hnil]. destruct (split_space_nonempty rest Hnil).
    + destruct (split_space rest) as [|p ps] eqn:Hsplit.
      * destruct (split_space_nonempty rest Hsplit).
      * intros [= <- ->]. destruct (IH p eq_refl) as [-> Hfree].
        split; [reflexivity|]. split; [exact Hc|exact Hfree].
Qed.

(** Exactly two parts: exactly one space. *)
Lemma split_space_two (s a b : string) :
  split_space s = [a; b] →
  s = String.append a (String " " b) ∧ space_free a ∧ space_free b.
Proof.
  revert a. induction s as [|c rest IH]; intros a; simpl.
  - discriminate.
  - destruct (Ascii.eqb_spec c " ") as [->|Hc].
    + intros [= <- Hrest]. destruct (split_space_one rest b Hrest) as [-> Hfree].
      split; [reflexivity|]. split; [exact I|exact Hfree].
    + destruct (split_space rest) as [|p ps] eqn:Hsplit.
      * destruct (split_space_nonempty rest Hsplit).
      * intros [= <- ->]. destruct (IH p eq_refl) as (-> & Hp & Hb).
        split; [reflexivity|]. split; [split; [exact Hc|exact Hp]|exact Hb].
Qed.

(** What the decorator does with a header of the accepted shape. *)
Lemma token_required_accepted (user : Type)
      (verify_jwt : string → verdict) (decode_jwt : string → option user)
      (req : request) (token_type token : string) :
  authorization req = Some (String.append token_type (String " " token)) →
  space_free token_type → space_free token →
  lower token_type = "bearer"%string → verify_jwt token = Truthy →
  token_required user verify_jwt decode_jwt req
  = match decode_jwt token with
    | None => DecodeRaised
    | Some current_user =>
        if String.eqb (method req) "POST" || String.eqb (method req) "PUT"
           || String.eqb (method req) "DELETE"
        then CallWithUser current_user else CallPlain
    end.
Proof.
  intros Hhdr Ha Hb Hbearer Hverify. unfold token_required. rewrite Hhdr.
  assert (Hsplit : split_space (String.append token_type (String " " token))
                   = [token_type; token]).
  { rewrite (split_space_append _ _ Ha), (split_space_free _ Hb). reflexivity. }
  destruct (String.append token_type (String " " token)) as [|c h] eqn:Happ.
  { destruct token_type; discriminate. }
  rewrite Hsplit, Hbearer, Hverify. reflexivity.
Qed.

(** Every request either has a header of the accepted shape with a
    token that [verify_jwt] accepts, or is answered with a 403. *)
Lemma token_required_cases (user : Type)
      (verify_jwt : string → verdict) (decode_jwt : string → option user)
      (req : request) :
  (∃ token_type token : string,
     authorization req = Some (String.append token_type (String " " token))
     ∧ space_free token_type ∧ space_free token
     ∧ lower token_type = "bearer"%string
     ∧ verify_jwt token = Truthy)
  ∨ ∃ b, token_required user verify_jwt decode_jwt req = Forbidden b.
Proof.
  unfold token_required.
  destruct (authorization req) as [[|c h]|]; [right; eauto| |right; eauto].
  destruct (split_space (String c h)) as [|a [|b [|x l]]] eqn:Hsplit;
    try (right; eauto; fail).
  destruct (split_space_two _ _ _ Hsplit) as (Hhdr & Ha & Hb).
  destruct (String.eqb_spec (lower a) "bearer") as [Hbearer|_];
    [|right; eauto].
  simpl. destruct (verify_jwt b) eqn:Hverify; try (right; eauto; fail).
  left. exists a, b. rewrite Hhdr. auto.
Qed.

(** X10.  The decorator lets the wrapped handler run exactly for a
    request whose Authorization header is a type, one space and a token,
    with no other space, whose type is "bearer" in any capitalisation,
    whose token [verify_jwt] accepts and [decode_jwt] decodes.  When the
    header has that shape and the token is accepted but [decode_jwt]
    raises, the exception leaves the decorator: that call is outside
    the [try].  Every other request is answered by the decorator itself
    with a 403; a missing or empty header gets the message
    "Token is missing!". *)
Theorem X10_handler_runs_only_for_a_verified_bearer_token (user : Type)
        (verify_jwt : string → verdict) (decode_jwt : string → option user)
        (req : request) :
  (((∃ current_user,
       token_required user verify_jwt decode_jwt req
       = CallWithUser current_user)
    ∨ token_required user verify_jwt decode_jwt req = CallPlain)
   ↔ ∃ token_type token : string,
       authorization req = Some (String.append token_type (String " " token))
       ∧ space_free token_type ∧ space_free token
       ∧ lower token_type = "bearer"%string
       ∧ verify_jwt token = Truthy
       ∧ is_Some (decode_jwt token))
  ∧ (token_required user verify_jwt decode_jwt req = DecodeRaised
     ↔ ∃ token_type token : string,
         authorization req = Some (String.append token_type (String " " token))
         ∧ space_free token_type ∧ space_free token
         ∧ lower token_type = "bearer"%string
         ∧ verify_jwt token = Truthy
         ∧ decode_jwt token = None)
  ∧ ((∃ b, token_required user verify_jwt decode_jwt req = Forbidden b)
     ↔ ¬ ∃ token_type token : string,
           authorization req
           = Some (String.append token_type (String " " token))
           ∧ space_free token_type ∧ space_free token
           ∧ lower token_type = "bearer"%string
           ∧ verify_jwt token = Truthy)
  ∧ (authorization req = None ∨ authorization req = Some ""%string →
     token_required user verify_jwt decode_jwt req
     = Forbidden (Message "Token is missing!")).
Proof.
  split; [|split; [|split]].
  - split.
    + intros Hcall.
      destruct (token_required_cases user verify_jwt decode_jwt req)
        as [(a & b & Hhdr & Ha & Hb & Hbearer & Hverify)|[body Hforbidden]].
      * exists a, b.
        rewrite (token_required_accepted _ _ _ _ _ _ Hhdr Ha Hb Hbearer Hverify)
          in Hcall.
        destruct (decode_jwt b) as [u|];
          [eauto 10|destruct Hcall as [[? ?]|?]; discriminate].
      * rewrite Hforbidden in Hcall.
        destruct Hcall as [[? ?]|?]; discriminate.
    + intros (a & b & Hhdr & Ha & Hb & Hbearer & Hverify & [u Hdecode]).
      rewrite (token_required_accepted _ _ _ _ _ _ Hhdr Ha Hb Hbearer Hverify),
        Hdecode.
      destruct (String.eqb (method req) "POST" || String.eqb (method req) "PUT"
                || String.eqb (method req) "DELETE"); eauto.
  - split.
    + intros Hraised.
      destruct (token_required_cases user verify_jwt decode_jwt req)
        as [(a & b & Hhdr & Ha & Hb & Hbearer & Hverify)|[body Hforbidden]].
      * exists a, b.
        rewrite (token_required_accepted _ _ _ _ _ _ Hhdr Ha Hb Hbearer Hverify)
          in Hraised.
        destruct (decode_jwt b) as [u|]; [|auto 10].
        destruct (String.eqb (method req) "POST" || String.eqb (method req) "PUT"
                  || String.eqb (method req) "DELETE"); discriminate.
      * rewrite Hforbidden in Hraised. discriminate.
    + intros (a & b & Hhdr & Ha & Hb & Hbearer & Hverify & Hdecode).
      rewrite (token_required_accepted _ _ _ _ _ _ Hhdr Ha Hb Hbearer Hverify),
        Hdecode. reflexivity.
  - split.
    + intros [body Hforbidden] (a & b & Hhdr & Ha & Hb & Hbearer & Hverify).
      rewrite (token_required_accepted _ _ _ _ _ _ Hhdr Ha Hb Hbearer Hverify)
        in Hforbidden.
      destruct (decode_jwt b) as [u|]; [|discriminate].
      destruct (String.eqb (method req) "POST" || String.eqb (method req) "PUT"
                || String.eqb (method req) "DELETE"); discriminate.
    + intros Hnone.
      destruct (token_required_cases user verify_jwt decode_jwt req)
        as [Hshape|Hforbidden]; [contradiction|exact Hforbidden].
  - intros [Hhdr|Hhdr]; unfold token_required; rewrite Hhdr; reflexivity.
Qed.

Lemma X10_handler_runs_only_for_a_verified_bearer_token_witness :
  token_required nat (fun token => if String.eqb token "t0" then Truthy else Falsy)
                 (fun _ => Some 7%nat) (mkRequest "PUT" (Some "BeArEr t0"))
  = CallWithUser 7%nat
  ∧ ∃ token_type token : string,
      Some "BeArEr t0"%string = Some (String.append token_type (String " " token))
      ∧ space_free token_type ∧ space_free token
      ∧ lower token_type = "bearer"%string
      ∧ (if String.eqb token "t0" then Truthy else Falsy) = Truthy
      ∧ is_Some (Some 7%nat).
Proof.
  split; [reflexivity|].
  apply (proj1 (proj1 (X10_handler_runs_only_for_a_verified_bearer_token nat
                  (fun token => if String.eqb token "t0" then Truthy else Falsy)
                  (fun _ => Some 7%nat) (mkRequest "PUT" (Some "BeArEr t0"))))).
  left. exists 7%nat. reflexivity.
Defined.
